(** * Shallow embedding of nmm-rust: the install-log schema, the
    install ledger, [IniEdit] and the [ModInfo] helpers.

    Rust strings are modelled as [string] (a list of 8-bit characters, i.e.
    the UTF-8 bytes of the Rust [String]); comparisons on strings are the
    byte-wise comparisons Rust's [str] uses. *)

From Stdlib Require Import String Ascii List ZArith NArith Bool Lia.
Import ListNotations.
Open Scope string_scope.

(* ------------------------------------------------------------------ *)
(** ** ASCII helpers of Rust's [str] *)

Module RStr.

(** [u8::to_ascii_lowercase]: only the bytes [A..Z] change. *)
Definition byte_to_ascii_lowercase (c : ascii) : ascii :=
  let n := N_of_ascii c in
  if (65 <=? n)%N && (n <=? 90)%N then ascii_of_N (n + 32) else c.

(** [str::to_ascii_lowercase]. *)
Fixpoint to_ascii_lowercase (s : string) : string :=
  match s with
  | EmptyString => EmptyString
  | String c s' => String (byte_to_ascii_lowercase c) (to_ascii_lowercase s')
  end.

(** [str::eq_ignore_ascii_case]: equal lengths and byte-wise equal after
    lowering each byte. *)
Fixpoint eq_ignore_ascii_case (a b : string) : bool :=
  match a, b with
  | EmptyString, EmptyString => true
  | String c a', String d b' =>
      Ascii.eqb (byte_to_ascii_lowercase c) (byte_to_ascii_lowercase d)
      && eq_ignore_ascii_case a' b'
  | _, _ => false
  end.

(** [Ord for str]: lexicographic comparison of the bytes, a proper prefix
    being smaller. *)
Fixpoint cmp (a b : string) : comparison :=
  match a, b with
  | EmptyString, EmptyString => Eq
  | EmptyString, String _ _ => Lt
  | String _ _, EmptyString => Gt
  | String c a', String d b' =>
      match N.compare (N_of_ascii c) (N_of_ascii d) with
      | Eq => cmp a' b'
      | r => r
      end
  end.

(** One call a [Hasher] receives. *)
Inductive HashCall :=
| Write (bytes : string)
| WriteU8 (b : N).

(** [Hash for str]: [state.write(bytes); state.write_u8(0xff)]. *)
Definition hash_str (s : string) : list HashCall := [Write s; WriteU8 255].

End RStr.

(* ------------------------------------------------------------------ *)
(** ** [IniEdit] (crates/nmm-core/src/install_log.rs) *)

Module IniEdit.
Import RStr.

Record IniEdit := mk { file : string; section : string; key : string }.

(** [impl PartialEq for IniEdit]. *)
Definition eq (self other : IniEdit) : bool :=
  eq_ignore_ascii_case self.(file) other.(file)
  && eq_ignore_ascii_case self.(section) other.(section)
  && eq_ignore_ascii_case self.(key) other.(key).

(** [impl Hash for IniEdit]: the calls made on the hasher. *)
Definition hash (self : IniEdit) : list HashCall :=
  hash_str (to_ascii_lowercase self.(file))
  ++ hash_str (to_ascii_lowercase self.(section))
  ++ hash_str (to_ascii_lowercase self.(key)).

(** [impl Ord for IniEdit]. *)
Definition cmp (self other : IniEdit) : comparison :=
  let file_cmp := RStr.cmp (to_ascii_lowercase self.(file))
                           (to_ascii_lowercase other.(file)) in
  match file_cmp with
  | Eq =>
      let section_cmp := RStr.cmp (to_ascii_lowercase self.(section))
                                  (to_ascii_lowercase other.(section)) in
      match section_cmp with
      | Eq => RStr.cmp (to_ascii_lowercase self.(key))
                       (to_ascii_lowercase other.(key))
      | r => r
      end
  | r => r
  end.

(** Two coordinates that differ only by ASCII case in each field. *)
Definition case_variants (a b : IniEdit) : Prop :=
  to_ascii_lowercase a.(file) = to_ascii_lowercase b.(file)
  /\ to_ascii_lowercase a.(section) = to_ascii_lowercase b.(section)
  /\ to_ascii_lowercase a.(key) = to_ascii_lowercase b.(key).

End IniEdit.

(* ------------------------------------------------------------------ *)
(** ** [ModInfo::parse_version] (crates/nmm-core/src/mod_info.rs)

    The input is the UTF-8 encoding of the Rust [&str]; [.chars()] decodes
    it into Unicode scalar values, which are tested with [char::is_numeric].
    The later steps ([trim_end_matches('.')], [split('.')], semver's parser)
    are byte-wise: the byte of ['.'] never occurs inside the encoding of
    another character. *)

Module Version.

Record Version := mkv { major : N; minor : N; patch : N }.

(** [u8::is_ascii_digit]: the bytes ['0'..'9']. *)
Definition is_ascii_digit (c : ascii) : bool :=
  let n := N_of_ascii c in (48 <=? n)%N && (n <=? 57)%N.

Definition dot : ascii := "."%char.

Definition is_dot (c : ascii) : bool := Ascii.eqb c dot.

(** The code points above U+007F with a numeric general category (Nd, Nl,
    No), as ranges of the Unicode Character Database, version 14.0. *)
Definition numeric_ranges : list (N * N) :=
  [ (178, 179); (185, 185); (188, 190); (1632, 1641); (1776, 1785);
    (1984, 1993); (2406, 2415); (2534, 2543); (2548, 2553); (2662, 2671);
    (2790, 2799); (2918, 2927); (2930, 2935); (3046, 3058); (3174, 3183);
    (3192, 3198); (3302, 3311); (3416, 3422); (3430, 3448); (3558, 3567);
    (3664, 3673); (3792, 3801); (3872, 3891); (4160, 4169); (4240, 4249);
    (4969, 4988); (5870, 5872); (6112, 6121); (6128, 6137); (6160, 6169);
    (6470, 6479); (6608, 6618); (6784, 6793); (6800, 6809); (6992, 7001);
    (7088, 7097); (7232, 7241); (7248, 7257); (8304, 8304); (8308, 8313);
    (8320, 8329); (8528, 8578); (8581, 8585); (9312, 9371); (9450, 9471);
    (10102, 10131); (11517, 11517); (12295, 12295); (12321, 12329);
    (12344, 12346); (12690, 12693); (12832, 12841); (12872, 12879);
    (12881, 12895); (12928, 12937); (12977, 12991); (42528, 42537);
    (42726, 42735); (43056, 43061); (43216, 43225); (43264, 43273);
    (43472, 43481); (43504, 43513); (43600, 43609); (44016, 44025);
    (65296, 65305); (65799, 65843); (65856, 65912); (65930, 65931);
    (66273, 66299); (66336, 66339); (66369, 66369); (66378, 66378);
    (66513, 66517); (66720, 66729); (67672, 67679); (67705, 67711);
    (67751, 67759); (67835, 67839); (67862, 67867); (68028, 68029);
    (68032, 68047); (68050, 68095); (68160, 68168); (68221, 68222);
    (68253, 68255); (68331, 68335); (68440, 68447); (68472, 68479);
    (68521, 68527); (68858, 68863); (68912, 68921); (69216, 69246);
    (69405, 69414); (69457, 69460); (69573, 69579); (69714, 69743);
    (69872, 69881); (69942, 69951); (70096, 70105); (70113, 70132);
    (70384, 70393); (70736, 70745); (70864, 70873); (71248, 71257);
    (71360, 71369); (71472, 71483); (71904, 71922); (72016, 72025);
    (72784, 72812); (73040, 73049); (73120, 73129); (73664, 73684);
    (74752, 74862); (92768, 92777); (92864, 92873); (93008, 93017);
    (93019, 93025); (93824, 93846); (119520, 119539); (119648, 119672);
    (120782, 120831); (123200, 123209); (123632, 123641); (125127, 125135);
    (125264, 125273); (126065, 126123); (126125, 126127); (126129, 126132);
    (126209, 126253); (126255, 126269); (127232, 127244); (130032, 130041) ]%N.

(** [core::unicode::N] on a code point above U+007F. *)
Definition unicode_N (c : N) : bool :=
  existsb (fun r => (fst r <=? c)%N && (c <=? snd r)%N) numeric_ranges.

(** [char::is_numeric]: ['0'..='9'], or above ['\x7f'] and numeric. *)
Definition char_is_numeric (c : N) : bool :=
  if (48 <=? c)%N && (c <=? 57)%N then true else (127 <? c)%N && unicode_N c.

(** The payload bits of a UTF-8 lead byte, and the number of continuation
    bytes that follow it. *)
Definition lead_bits (b : N) : N :=
  if (b <? 224)%N then N.land b 31 else if (b <? 240)%N then N.land b 15 else N.land b 7.

Definition utf8_extra (b : N) : nat :=
  if (b <? 224)%N then 1 else if (b <? 240)%N then 2 else 3.

(** [.chars().filter(|c| c.is_numeric() || *c == '.').collect()] on the
    bytes [s], in the middle of a character whose bytes so far are [pend],
    with [need] continuation bytes still to come and code point bits [cp];
    a kept character is written back with its own bytes. *)
Fixpoint clean_aux (s : string) (pend : string) (need : nat) (cp : N) : string :=
  match s with
  | EmptyString => EmptyString
  | String c s' =>
      let b := N_of_ascii c in
      match need with
      | S k =>
          let cp' := N.lor (N.shiftl cp 6) (N.land b 63) in
          let pend' := (pend ++ String c EmptyString) in
          match k with
          | O => if char_is_numeric cp' then pend' ++ clean_aux s' EmptyString 0 0
                 else clean_aux s' EmptyString 0 0
          | S _ => clean_aux s' pend' k cp'
          end
      | O =>
          if (b <? 128)%N then
            if char_is_numeric b || is_dot c then String c (clean_aux s' EmptyString 0 0)
            else clean_aux s' EmptyString 0 0
          else if (b <? 192)%N then clean_aux s' EmptyString 0 0
          else clean_aux s' (String c EmptyString) (utf8_extra b) (lead_bits b)
      end
  end.

Definition clean (s : string) : string := clean_aux s EmptyString 0 0.

(** [trim_end_matches('.')] *)
Fixpoint trim_end_dots (s : string) : string :=
  match s with
  | EmptyString => EmptyString
  | String c s' =>
      let t := trim_end_dots s' in
      match t with
      | EmptyString => if is_dot c then EmptyString else String c EmptyString
      | _ => String c t
      end
  end.

(** [starts_with('.')] *)
Definition starts_with_dot (s : string) : bool :=
  match s with
  | String c _ => is_dot c
  | EmptyString => false
  end.

(** [split('.')]: the pieces between dots, empty ones included; never
    the empty list. *)
Fixpoint split_dot (s : string) : list string :=
  match s with
  | EmptyString => [EmptyString]
  | String c s' =>
      if is_dot c then EmptyString :: split_dot s'
      else match split_dot s' with
           | h :: t => String c h :: t
           | [] => [String c EmptyString]
           end
  end.

Definition is_nonempty (s : string) : bool :=
  match s with EmptyString => false | _ => true end.

(** [parts.join(".")] *)
Fixpoint join_dot (ps : list string) : string :=
  match ps with
  | [] => EmptyString
  | [p] => p
  | p :: ps' => p ++ "." ++ join_dot ps'
  end.

Definition u64_max : N := 18446744073709551615.

Definition digit_value (c : ascii) : N := (N_of_ascii c - 48)%N.

(** semver's [numeric_identifier]: a run of digits, no leading zero,
    no overflow of [u64]; returns the value, the rest and the length. *)
Fixpoint numeric_aux (s : string) (len : nat) (value : N)
  : option (N * string * nat) :=
  match s with
  | String c s' =>
      if is_ascii_digit c then
        if (value =? 0)%N && (0 <? len)%nat then None          (* LeadingZero *)
        else
          let v := (value * 10 + digit_value c)%N in
          if (v <=? u64_max)%N then numeric_aux s' (S len) v
          else None                                              (* Overflow *)
      else Some (value, s, len)
  | EmptyString => Some (value, EmptyString, len)
  end.

Definition numeric_identifier (s : string) : option (N * string) :=
  match numeric_aux s 0 0 with
  | Some (v, rest, len) => if (len =? 0)%nat then None else Some (v, rest)
  | None => None
  end.

(** [semver::Version::parse] on the strings [parse_version] hands it, which
    hold dots and numeric characters: [major.minor.patch] of ASCII digits
    and nothing after it.  A pre-release or build suffix would need a '-'
    or '+', and any other byte, such as one of a non-ASCII numeric
    character, is an unexpected character. *)
Definition semver_parse (s : string) : option Version :=
  match s with
  | EmptyString => None                                          (* Empty *)
  | _ =>
    match numeric_identifier s with
    | Some (maj, String c1 r1) =>
      if is_dot c1 then
        match numeric_identifier r1 with
        | Some (mi, String c2 r2) =>
          if is_dot c2 then
            match numeric_identifier r2 with
            | Some (pa, EmptyString) => Some (mkv maj mi pa)
            | _ => None
            end
          else None
        | _ => None
        end
      else None
    | _ => None
    end
  end.

(** [match parts.len() { 1 => .., 2 => .., _ => parts.join(".") }] *)
Definition normalize (parts : list string) : string :=
  match parts with
  | [p] => p ++ ".0.0"
  | [p; q] => p ++ "." ++ q ++ ".0"
  | _ => join_dot parts
  end.

(** [ModInfo::parse_version]. *)
Definition parse_version (version_str : string) : option Version :=
  let cleaned := clean version_str in
  match cleaned with
  | EmptyString => None
  | _ =>
    let cleaned := trim_end_dots cleaned in
    let cleaned := if starts_with_dot cleaned then "0" ++ cleaned else cleaned in
    let parts := filter is_nonempty (split_dot cleaned) in
    match parts with
    | [] => None
    | _ => semver_parse (normalize parts)
    end
  end.

(** The non-empty dot-separated segments of a string. *)
Definition segments (s : string) : list string := filter is_nonempty (split_dot s).

(** The decimal digits of [n], most significant first, before [acc]
    ([Display] of [u64]); [fuel] bounds the number of digits. *)
Fixpoint dec_aux (fuel : nat) (n : N) (acc : string) : string :=
  match fuel with
  | O => acc
  | S f =>
      let acc' := String (ascii_of_N (48 + n mod 10)) acc in
      if (n <? 10)%N then acc' else dec_aux f (n / 10) acc'
  end.

(** [n.to_string()] for a [u64]: [n] has at most [log2 n + 1] digits. *)
Definition to_dec (n : N) : string := dec_aux (S (N.to_nat (N.log2 n))) n EmptyString.

(** [impl Display for semver::Version] on a version without pre-release
    or build metadata: [{major}.{minor}.{patch}]. *)
Definition to_string (v : Version) : string :=
  to_dec v.(major) ++ "." ++ to_dec v.(minor) ++ "." ++ to_dec v.(patch).

(** [impl Ord for semver::Version] on versions without pre-release or build
    metadata: [major], then [minor], then [patch]. *)
Definition cmp (a b : Version) : comparison :=
  match N.compare a.(major) b.(major) with
  | Eq =>
      match N.compare a.(minor) b.(minor) with
      | Eq => N.compare a.(patch) b.(patch)
      | c => c
      end
  | c => c
  end.

End Version.

(* ------------------------------------------------------------------ *)
(** ** [ModInfo::update_from] (crates/nmm-core/src/mod_info.rs)

    [url::Url] is kept as its text, [DateTime<Utc>] as a timestamp, and
    [semver::Version] as the record above; the merge never looks inside
    these values. *)

Module ModInfo.
Import Version.

Record ModInfo := mkmi {
  id : option string;
  download_id : option string;
  name : string;
  file_name : string;
  version : string;
  machine_version : option Version;
  author : option string;
  description : option string;
  category_id : option Z;
  custom_category_id : option Z;
  website : option string;
  download_date : option Z;
  install_date : option Z;
  is_endorsed : option bool;
  load_order : option Z;
  last_known_version : option string;
  screenshot : option (list N);
  update_warning_enabled : bool;
  update_checks_enabled : bool;
  new_load_order : option Z
}.

(** [ModInfo::new]: the two names, everything else [Default::default()]. *)
Definition new (name file_name : string) : ModInfo :=
  mkmi None None name file_name "" None None None None None None None None None None
    None None false false None.

Definition is_none {A} (o : option A) : bool :=
  match o with None => true | Some _ => false end.

Definition is_empty (s : string) : bool :=
  match s with EmptyString => true | _ => false end.

(** [update_option!], [update_string!], [update_bool!] *)
Definition update_option {A} (overwrite_all : bool) (self other : option A) : option A :=
  if overwrite_all || is_none self then other else self.

Definition update_string (overwrite_all : bool) (self other : string) : string :=
  if overwrite_all || is_empty self then other else self.

Definition update_bool (overwrite_all : bool) (self other : bool) : bool :=
  if overwrite_all then other else self.

(** [ModInfo::update_from]: every field is updated once, independently of
    the others, so the sequence of macro calls is one record build. *)
Definition update_from (self other : ModInfo) (overwrite_all : bool) : ModInfo :=
  let o := overwrite_all in
  {| id := update_option o self.(id) other.(id);
     download_id := update_option o self.(download_id) other.(download_id);
     name := update_string o self.(name) other.(name);
     file_name := update_string o self.(file_name) other.(file_name);
     version := update_string o self.(version) other.(version);
     machine_version := update_option o self.(machine_version) other.(machine_version);
     last_known_version := update_option o self.(last_known_version) other.(last_known_version);
     author := update_option o self.(author) other.(author);
     description := update_option o self.(description) other.(description);
     category_id := update_option o self.(category_id) other.(category_id);
     custom_category_id := update_option o self.(custom_category_id) other.(custom_category_id);
     website := update_option o self.(website) other.(website);
     download_date := update_option o self.(download_date) other.(download_date);
     install_date := update_option o self.(install_date) other.(install_date);
     is_endorsed := update_option o self.(is_endorsed) other.(is_endorsed);
     screenshot := update_option o self.(screenshot) other.(screenshot);
     update_warning_enabled := update_bool o self.(update_warning_enabled) other.(update_warning_enabled);
     update_checks_enabled := update_bool o self.(update_checks_enabled) other.(update_checks_enabled);
     load_order := update_option o self.(load_order) other.(load_order);
     new_load_order := update_option o self.(new_load_order) other.(new_load_order) |}.

(** [ModInfo::default()] (derived): [None], [""] and [false]. *)
Definition default : ModInfo :=
  mkmi None None "" "" "" None None None None None None None None None None
    None None false false None.

(** [ModInfo::with_version]: set the version. *)
Definition with_version (self : ModInfo) (version : string) : ModInfo :=
  {| id := self.(id);
     download_id := self.(download_id);
     name := self.(name);
     file_name := self.(file_name);
     version := version;
     machine_version := self.(machine_version);
     author := self.(author);
     description := self.(description);
     category_id := self.(category_id);
     custom_category_id := self.(custom_category_id);
     website := self.(website);
     download_date := self.(download_date);
     install_date := self.(install_date);
     is_endorsed := self.(is_endorsed);
     load_order := self.(load_order);
     last_known_version := self.(last_known_version);
     screenshot := self.(screenshot);
     update_warning_enabled := self.(update_warning_enabled);
     update_checks_enabled := self.(update_checks_enabled);
     new_load_order := self.(new_load_order) |}.

(** [ModInfo::with_author]: set the author. *)
Definition with_author (self : ModInfo) (author : string) : ModInfo :=
  {| id := self.(id);
     download_id := self.(download_id);
     name := self.(name);
     file_name := self.(file_name);
     version := self.(version);
     machine_version := self.(machine_version);
     author := Some author;
     description := self.(description);
     category_id := self.(category_id);
     custom_category_id := self.(custom_category_id);
     website := self.(website);
     download_date := self.(download_date);
     install_date := self.(install_date);
     is_endorsed := self.(is_endorsed);
     load_order := self.(load_order);
     last_known_version := self.(last_known_version);
     screenshot := self.(screenshot);
     update_warning_enabled := self.(update_warning_enabled);
     update_checks_enabled := self.(update_checks_enabled);
     new_load_order := self.(new_load_order) |}.

(** [ModInfo::with_download_id]: set the download ID. *)
Definition with_download_id (self : ModInfo) (download_id : string) : ModInfo :=
  {| id := self.(id);
     download_id := Some download_id;
     name := self.(name);
     file_name := self.(file_name);
     version := self.(version);
     machine_version := self.(machine_version);
     author := self.(author);
     description := self.(description);
     category_id := self.(category_id);
     custom_category_id := self.(custom_category_id);
     website := self.(website);
     download_date := self.(download_date);
     install_date := self.(install_date);
     is_endorsed := self.(is_endorsed);
     load_order := self.(load_order);
     last_known_version := self.(last_known_version);
     screenshot := self.(screenshot);
     update_warning_enabled := self.(update_warning_enabled);
     update_checks_enabled := self.(update_checks_enabled);
     new_load_order := self.(new_load_order) |}.

(** [ModInfo::with_description]: set the description. *)
Definition with_description (self : ModInfo) (description : string) : ModInfo :=
  {| id := self.(id);
     download_id := self.(download_id);
     name := self.(name);
     file_name := self.(file_name);
     version := self.(version);
     machine_version := self.(machine_version);
     author := self.(author);
     description := Some description;
     category_id := self.(category_id);
     custom_category_id := self.(custom_category_id);
     website := self.(website);
     download_date := self.(download_date);
     install_date := self.(install_date);
     is_endorsed := self.(is_endorsed);
     load_order := self.(load_order);
     last_known_version := self.(last_known_version);
     screenshot := self.(screenshot);
     update_warning_enabled := self.(update_warning_enabled);
     update_checks_enabled := self.(update_checks_enabled);
     new_load_order := self.(new_load_order) |}.

(** [ModInfo::with_website]: set the website URL. *)
Definition with_website (self : ModInfo) (url : string) : ModInfo :=
  {| id := self.(id);
     download_id := self.(download_id);
     name := self.(name);
     file_name := self.(file_name);
     version := self.(version);
     machine_version := self.(machine_version);
     author := self.(author);
     description := self.(description);
     category_id := self.(category_id);
     custom_category_id := self.(custom_category_id);
     website := Some url;
     download_date := self.(download_date);
     install_date := self.(install_date);
     is_endorsed := self.(is_endorsed);
     load_order := self.(load_order);
     last_known_version := self.(last_known_version);
     screenshot := self.(screenshot);
     update_warning_enabled := self.(update_warning_enabled);
     update_checks_enabled := self.(update_checks_enabled);
     new_load_order := self.(new_load_order) |}.

(** [ModInfo::with_screenshot]: set the screenshot data. *)
Definition with_screenshot (self : ModInfo) (data : list N) : ModInfo :=
  {| id := self.(id);
     download_id := self.(download_id);
     name := self.(name);
     file_name := self.(file_name);
     version := self.(version);
     machine_version := self.(machine_version);
     author := self.(author);
     description := self.(description);
     category_id := self.(category_id);
     custom_category_id := self.(custom_category_id);
     website := self.(website);
     download_date := self.(download_date);
     install_date := self.(install_date);
     is_endorsed := self.(is_endorsed);
     load_order := self.(load_order);
     last_known_version := self.(last_known_version);
     screenshot := Some data;
     update_warning_enabled := self.(update_warning_enabled);
     update_checks_enabled := self.(update_checks_enabled);
     new_load_order := self.(new_load_order) |}.

(** [ModInfo::with_update_warnings]: enable or disable update warnings. *)
Definition with_update_warnings (self : ModInfo) (enabled : bool) : ModInfo :=
  {| id := self.(id);
     download_id := self.(download_id);
     name := self.(name);
     file_name := self.(file_name);
     version := self.(version);
     machine_version := self.(machine_version);
     author := self.(author);
     description := self.(description);
     category_id := self.(category_id);
     custom_category_id := self.(custom_category_id);
     website := self.(website);
     download_date := self.(download_date);
     install_date := self.(install_date);
     is_endorsed := self.(is_endorsed);
     load_order := self.(load_order);
     last_known_version := self.(last_known_version);
     screenshot := self.(screenshot);
     update_warning_enabled := enabled;
     update_checks_enabled := self.(update_checks_enabled);
     new_load_order := self.(new_load_order) |}.

(** [ModInfo::with_update_checks]: enable or disable automatic update checks. *)
Definition with_update_checks (self : ModInfo) (enabled : bool) : ModInfo :=
  {| id := self.(id);
     download_id := self.(download_id);
     name := self.(name);
     file_name := self.(file_name);
     version := self.(version);
     machine_version := self.(machine_version);
     author := self.(author);
     description := self.(description);
     category_id := self.(category_id);
     custom_category_id := self.(custom_category_id);
     website := self.(website);
     download_date := self.(download_date);
     install_date := self.(install_date);
     is_endorsed := self.(is_endorsed);
     load_order := self.(load_order);
     last_known_version := self.(last_known_version);
     screenshot := self.(screenshot);
     update_warning_enabled := self.(update_warning_enabled);
     update_checks_enabled := enabled;
     new_load_order := self.(new_load_order) |}.

(** [ModInfo::parse_machine_version] ([&mut self]): the record with
    [machine_version] replaced by the parse of [version]. *)
Definition parse_machine_version (self : ModInfo) : ModInfo :=
  {| id := self.(id);
     download_id := self.(download_id);
     name := self.(name);
     file_name := self.(file_name);
     version := self.(version);
     machine_version := parse_version self.(version);
     author := self.(author);
     description := self.(description);
     category_id := self.(category_id);
     custom_category_id := self.(custom_category_id);
     website := self.(website);
     download_date := self.(download_date);
     install_date := self.(install_date);
     is_endorsed := self.(is_endorsed);
     load_order := self.(load_order);
     last_known_version := self.(last_known_version);
     screenshot := self.(screenshot);
     update_warning_enabled := self.(update_warning_enabled);
     update_checks_enabled := self.(update_checks_enabled);
     new_load_order := self.(new_load_order) |}.

(** [ModInfo::has_update]: [latest > *current] when both versions are there
    and [last_known_version] parses. *)
Definition has_update (self : ModInfo) : bool :=
  match self.(machine_version), self.(last_known_version) with
  | Some current, Some latest_str =>
      match parse_version latest_str with
      | Some latest => match Version.cmp latest current with Gt => true | _ => false end
      | None => false
      end
  | _, _ => false
  end.

(** [ModInfo::should_notify_update] *)
Definition should_notify_update (self : ModInfo) : bool :=
  self.(update_warning_enabled) && has_update self.

End ModInfo.

(* ------------------------------------------------------------------ *)
(** ** The SQLite store of the install log (crates/nmm-install-log)

    The store holds the five tables of [DDL_V1], each present ([Some rows])
    or absent ([None]), the names of the created indices, and the
    connection's [PRAGMA foreign_keys] flag.  A present table has the
    column layout [DDL_V1] gives it. *)

Module Store.
Import RStr.

Inductive SqlValue :=
| SNull
| SInt (z : Z)
| SText (s : string)
| SBlob (b : list N).

(** [schema_meta (key TEXT PRIMARY KEY, int_value INTEGER, text_value TEXT)] *)
Record MetaRow := mkmeta { meta_key : string; int_value : SqlValue; text_value : SqlValue }.

(** [mods (mod_key TEXT PRIMARY KEY, archive_path, name, version, ...)] *)
Record ModRow := mkmod {
  mod_key : string; archive_path : string; mod_name : string; mod_version : string;
  mod_machine_version : option string; mod_install_date : option string }.

(** [file_owners (file_path NOCASE, mod_key, install_order)] *)
Record FileRow := mkfile { file_path : string; fo_mod_key : string; fo_order : Z }.

(** [ini_edits (ini_file NOCASE, section NOCASE, key NOCASE, mod_key, value,
    install_order)] *)
Record IniRow := mkini {
  ini_file : string; ini_section : string; ini_key : string;
  ie_mod_key : string; ie_value : option string; ie_order : Z }.

(** [gsv_edits (gsv_key NOCASE, mod_key, blob_value, install_order)] *)
Record GsvRow := mkgsv { gsv_key : string; ge_mod_key : string;
                         blob_value : option (list N); ge_order : Z }.

Record Store := mkstore {
  schema_meta : option (list MetaRow);
  mods : option (list ModRow);
  file_owners : option (list FileRow);
  ini_edits : option (list IniRow);
  gsv_edits : option (list GsvRow);
  indices : list string;
  foreign_keys : bool
}.

Definition set_schema_meta (st : Store) (t : option (list MetaRow)) : Store :=
  mkstore t st.(mods) st.(file_owners) st.(ini_edits) st.(gsv_edits) st.(indices) st.(foreign_keys).
Definition set_mods (st : Store) (t : option (list ModRow)) : Store :=
  mkstore st.(schema_meta) t st.(file_owners) st.(ini_edits) st.(gsv_edits) st.(indices) st.(foreign_keys).
Definition set_file_owners (st : Store) (t : option (list FileRow)) : Store :=
  mkstore st.(schema_meta) st.(mods) t st.(ini_edits) st.(gsv_edits) st.(indices) st.(foreign_keys).
Definition set_ini_edits (st : Store) (t : option (list IniRow)) : Store :=
  mkstore st.(schema_meta) st.(mods) st.(file_owners) t st.(gsv_edits) st.(indices) st.(foreign_keys).
Definition set_gsv_edits (st : Store) (t : option (list GsvRow)) : Store :=
  mkstore st.(schema_meta) st.(mods) st.(file_owners) st.(ini_edits) t st.(indices) st.(foreign_keys).
Definition set_indices (st : Store) (t : list string) : Store :=
  mkstore st.(schema_meta) st.(mods) st.(file_owners) st.(ini_edits) st.(gsv_edits) t st.(foreign_keys).
(** [PRAGMA foreign_keys = ON / OFF] *)
Definition set_foreign_keys (st : Store) (fk : bool) : Store :=
  mkstore st.(schema_meta) st.(mods) st.(file_owners) st.(ini_edits) st.(gsv_edits) st.(indices) fk.

(** A fresh [Connection::open_in_memory()], with or without
    [PRAGMA foreign_keys = ON]. *)
Definition empty_store (fk : bool) : Store := mkstore None None None None None [] fk.

(** [rusqlite::Error], by its message. *)
Definition DbError := string.

Inductive Table := TSchemaMeta | TMods | TFileOwners | TIniEdits | TGsvEdits.

Definition table_exists (st : Store) (t : Table) : bool :=
  match t with
  | TSchemaMeta => if st.(schema_meta) then true else false
  | TMods => if st.(mods) then true else false
  | TFileOwners => if st.(file_owners) then true else false
  | TIniEdits => if st.(ini_edits) then true else false
  | TGsvEdits => if st.(gsv_edits) then true else false
  end.

Definition create_empty (st : Store) (t : Table) : Store :=
  match t with
  | TSchemaMeta => set_schema_meta st (Some [])
  | TMods => set_mods st (Some [])
  | TFileOwners => set_file_owners st (Some [])
  | TIniEdits => set_ini_edits st (Some [])
  | TGsvEdits => set_gsv_edits st (Some [])
  end.

(** The statements of [DDL_V1] and [SEED_V1]. *)
Inductive Stmt :=
| CreateTableIfNotExists (t : Table)
| CreateIndexIfNotExists (name : string) (t : Table)
| InsertOrIgnoreMeta (key : string) (v : Z).

(** The first row of [schema_meta] with the given key ([key] is
    [TEXT PRIMARY KEY], compared byte-wise). *)
Fixpoint meta_lookup (rows : list MetaRow) (k : string) : option MetaRow :=
  match rows with
  | [] => None
  | r :: rs => if String.eqb r.(meta_key) k then Some r else meta_lookup rs k
  end.

(** One statement; on an error the statement leaves the store unchanged. *)
Definition exec_stmt (st : Store) (s : Stmt) : Store * option DbError :=
  match s with
  | CreateTableIfNotExists t =>
      if table_exists st t then (st, None) else (create_empty st t, None)
  | CreateIndexIfNotExists n t =>
      if negb (table_exists st t) then (st, Some "no such table")
      else if existsb (String.eqb n) st.(indices) then (st, None)
      else (set_indices st (st.(indices) ++ [n])%list, None)
  | InsertOrIgnoreMeta k v =>
      match st.(schema_meta) with
      | None => (st, Some "no such table: schema_meta")
      | Some rows =>
          match meta_lookup rows k with
          | Some _ => (st, None)
          | None => (set_schema_meta st (Some (rows ++ [mkmeta k (SInt v) SNull])%list), None)
          end
      end
  end.

(** [Connection::execute_batch]: statements run one after the other with no
    enclosing transaction; the first error stops the batch and the effects
    of the statements before it remain. *)
Fixpoint execute_batch (ss : list Stmt) (st : Store) : Store * option DbError :=
  match ss with
  | [] => (st, None)
  | s :: ss' =>
      match exec_stmt st s with
      | (st', None) => execute_batch ss' st'
      | (st', Some e) => (st', Some e)
      end
  end.

End Store.

(* ------------------------------------------------------------------ *)
(** ** [schema] (crates/nmm-install-log/src/schema.rs, error.rs) *)

Module Schema.
Import Store.

(** [nmm_install_log::error::InstallLogError] *)
Inductive InstallLogError :=
| Db (e : DbError)
| UnsupportedSchemaVersion (found max : Z).

Inductive Result (A : Type) :=
| Ok (a : A)
| Err (e : InstallLogError).
Arguments Ok {A} a.
Arguments Err {A} e.

Definition CURRENT_VERSION : Z := 1.

Definition DDL_V1 : list Stmt :=
  [ CreateTableIfNotExists TSchemaMeta;
    CreateTableIfNotExists TMods;
    CreateTableIfNotExists TFileOwners;
    CreateTableIfNotExists TIniEdits;
    CreateTableIfNotExists TGsvEdits;
    CreateIndexIfNotExists "idx_file_owners_by_path" TFileOwners;
    CreateIndexIfNotExists "idx_file_owners_by_mod" TFileOwners;
    CreateIndexIfNotExists "idx_ini_edits_by_key" TIniEdits;
    CreateIndexIfNotExists "idx_ini_edits_by_mod" TIniEdits;
    CreateIndexIfNotExists "idx_gsv_edits_by_key" TGsvEdits;
    CreateIndexIfNotExists "idx_gsv_edits_by_mod" TGsvEdits ].

Definition SEED_V1 : list Stmt :=
  [ InsertOrIgnoreMeta "schema_version" 1;
    InsertOrIgnoreMeta "install_order_seq" 0 ].

(** [read_version]: 0 when [schema_meta] does not exist; otherwise the
    [int_value] of the [schema_version] row read as [i64], where every
    failure of that query (no row, a NULL or non-integer value) becomes 0
    through [unwrap_or(0)]. *)
Definition read_version (st : Store) : Result Z :=
  match st.(schema_meta) with
  | None => Ok 0%Z
  | Some rows =>
      match meta_lookup rows "schema_version" with
      | Some r => match r.(int_value) with SInt v => Ok v | _ => Ok 0%Z end
      | None => Ok 0%Z
      end
  end.

(** [schema::apply]: the store after the call and its result. *)
Definition apply (st : Store) : Store * Result unit :=
  match read_version st with
  | Err e => (st, Err e)
  | Ok current =>
    if (current >? CURRENT_VERSION)%Z then
      (st, Err (UnsupportedSchemaVersion current CURRENT_VERSION))
    else if (current =? CURRENT_VERSION)%Z then (st, Ok tt)
    else if (current <? 1)%Z then
      match execute_batch DDL_V1 st with
      | (st1, Some e) => (st1, Err (Db e))
      | (st1, None) =>
          match execute_batch SEED_V1 st1 with
          | (st2, Some e) => (st2, Err (Db e))
          | (st2, None) => (st2, Ok tt)
          end
      end
    else (st, Ok tt)
  end.

(** [apply] run [n] times in succession, from the same connection. *)
Fixpoint apply_times (n : nat) (st : Store) : Store :=
  match n with
  | O => st
  | S n' => apply_times n' (fst (apply st))
  end.

(** The stored [schema_meta] row for a key, if the table exists. *)
Definition stored_meta (st : Store) (k : string) : option SqlValue :=
  match st.(schema_meta) with
  | None => None
  | Some rows => option_map int_value (meta_lookup rows k)
  end.

End Schema.

(* ------------------------------------------------------------------ *)
(** ** Row statements on the install-log tables

    The SQL a ledger issues against the [DDL_V1] tables, with SQLite's
    semantics for the constraints [DDL_V1] declares: the primary keys
    (with [COLLATE NOCASE] on the resource columns) and, only when the
    connection has [PRAGMA foreign_keys = ON], the
    [FOREIGN KEY (mod_key) REFERENCES mods(mod_key) ON DELETE CASCADE]
    of the three ownership tables. *)

Module Dml.
Import RStr Store.

Inductive Dml :=
| InsertMod (r : ModRow)
| UpdateMod (r : ModRow)
| DeleteMod (k : string)
| InsertFile (r : FileRow)
| DeleteFile (path k : string)
| InsertIni (r : IniRow)
| DeleteIni (f s key k : string)
| InsertGsv (r : GsvRow)
| DeleteGsv (g k : string)
| SetMetaInt (k : string) (v : Z).

Definition mod_exists (st : Store) (k : string) : bool :=
  match st.(mods) with
  | Some ms => existsb (fun m => String.eqb m.(mod_key) k) ms
  | None => false
  end.

(** The parent check of the foreign key, made only when it is enforced. *)
Definition fk_violation (st : Store) (k : string) : bool :=
  st.(foreign_keys) && negb (mod_exists st k).

Definition file_match (path k : string) (r : FileRow) : bool :=
  eq_ignore_ascii_case r.(file_path) path && String.eqb r.(fo_mod_key) k.

Definition ini_match (f s key k : string) (r : IniRow) : bool :=
  eq_ignore_ascii_case r.(ini_file) f && eq_ignore_ascii_case r.(ini_section) s
  && eq_ignore_ascii_case r.(ini_key) key && String.eqb r.(ie_mod_key) k.

Definition gsv_match (g k : string) (r : GsvRow) : bool :=
  eq_ignore_ascii_case r.(gsv_key) g && String.eqb r.(ge_mod_key) k.

(** [ON DELETE CASCADE] of the three ownership tables. *)
Definition cascade (st : Store) (k : string) : Store :=
  let st := set_file_owners st
              (option_map (filter (fun r => negb (String.eqb r.(fo_mod_key) k))) st.(file_owners)) in
  let st := set_ini_edits st
              (option_map (filter (fun r => negb (String.eqb r.(ie_mod_key) k))) st.(ini_edits)) in
  set_gsv_edits st
    (option_map (filter (fun r => negb (String.eqb r.(ge_mod_key) k))) st.(gsv_edits)).

Definition no_table : option DbError := Some "no such table".
Definition unique_failed : option DbError := Some "UNIQUE constraint failed".
Definition fk_failed : option DbError := Some "FOREIGN KEY constraint failed".

(** The [schema_meta] rows after [UPDATE schema_meta SET int_value = v
    WHERE key = k]. *)
Definition set_meta_int (rows : list MetaRow) (k : string) (v : Z) : list MetaRow :=
  map (fun m => if String.eqb m.(meta_key) k then mkmeta k (SInt v) m.(text_value) else m) rows.

Definition exec_dml (st : Store) (d : Dml) : Store * option DbError :=
  match d with
  | InsertMod r =>
      match st.(mods) with
      | None => (st, no_table)
      | Some ms =>
          if existsb (fun m => String.eqb m.(mod_key) r.(mod_key)) ms then (st, unique_failed)
          else (set_mods st (Some (ms ++ [r])%list), None)
      end
  | UpdateMod r =>
      match st.(mods) with
      | None => (st, no_table)
      | Some ms =>
          (set_mods st (Some (map (fun m => if String.eqb m.(mod_key) r.(mod_key) then r else m) ms)),
           None)
      end
  | DeleteMod k =>
      match st.(mods) with
      | None => (st, no_table)
      | Some ms =>
          let st' := set_mods st (Some (filter (fun m => negb (String.eqb m.(mod_key) k)) ms)) in
          (if st.(foreign_keys) then cascade st' k else st', None)
      end
  | InsertFile r =>
      match st.(file_owners) with
      | None => (st, no_table)
      | Some rows =>
          if existsb (file_match r.(file_path) r.(fo_mod_key)) rows then (st, unique_failed)
          else if fk_violation st r.(fo_mod_key) then (st, fk_failed)
          else (set_file_owners st (Some (rows ++ [r])%list), None)
      end
  | DeleteFile path k =>
      match st.(file_owners) with
      | None => (st, no_table)
      | Some rows => (set_file_owners st (Some (filter (fun r => negb (file_match path k r)) rows)), None)
      end
  | InsertIni r =>
      match st.(ini_edits) with
      | None => (st, no_table)
      | Some rows =>
          if existsb (ini_match r.(ini_file) r.(ini_section) r.(ini_key) r.(ie_mod_key)) rows
          then (st, unique_failed)
          else if fk_violation st r.(ie_mod_key) then (st, fk_failed)
          else (set_ini_edits st (Some (rows ++ [r])%list), None)
      end
  | DeleteIni f s key k =>
      match st.(ini_edits) with
      | None => (st, no_table)
      | Some rows => (set_ini_edits st (Some (filter (fun r => negb (ini_match f s key k r)) rows)), None)
      end
  | InsertGsv r =>
      match st.(gsv_edits) with
      | None => (st, no_table)
      | Some rows =>
          if existsb (gsv_match r.(gsv_key) r.(ge_mod_key)) rows then (st, unique_failed)
          else if fk_violation st r.(ge_mod_key) then (st, fk_failed)
          else (set_gsv_edits st (Some (rows ++ [r])%list), None)
      end
  | DeleteGsv g k =>
      match st.(gsv_edits) with
      | None => (st, no_table)
      | Some rows => (set_gsv_edits st (Some (filter (fun r => negb (gsv_match g k r)) rows)), None)
      end
  | SetMetaInt k v =>
      match st.(schema_meta) with
      | None => (st, no_table)
      | Some rows =>
          (set_schema_meta st (Some (set_meta_int rows k v)), None)
      end
  end.

(** A sequence of statements, stopping at the first error. *)
Fixpoint exec_all (st : Store) (ds : list Dml) : Store * option DbError :=
  match ds with
  | [] => (st, None)
  | d :: ds' =>
      match exec_dml st d with
      | (st', None) => exec_all st' ds'
      | (st', Some e) => (st', Some e)
      end
  end.

(** Every ownership record names a mod of the [mods] table. *)
Definition owners_registered (st : Store) : Prop :=
  (forall rows r, st.(file_owners) = Some rows -> In r rows -> mod_exists st r.(fo_mod_key) = true)
  /\ (forall rows r, st.(ini_edits) = Some rows -> In r rows -> mod_exists st r.(ie_mod_key) = true)
  /\ (forall rows r, st.(gsv_edits) = Some rows -> In r rows -> mod_exists st r.(ge_mod_key) = true).

(** The primary keys of [DDL_V1] hold: no two rows of a table agree on
    its key columns, compared [COLLATE NOCASE] where the DDL declares it
    and byte-wise otherwise. *)
Definition keys_unique (st : Store) : Prop :=
  (forall rows, st.(schema_meta) = Some rows ->
     ForallOrdPairs (fun a b => String.eqb a.(meta_key) b.(meta_key) = false) rows) /\
  (forall ms, st.(mods) = Some ms ->
     ForallOrdPairs (fun a b => String.eqb a.(mod_key) b.(mod_key) = false) ms) /\
  (forall rows, st.(file_owners) = Some rows ->
     ForallOrdPairs (fun a b => file_match a.(file_path) a.(fo_mod_key) b = false) rows) /\
  (forall rows, st.(ini_edits) = Some rows ->
     ForallOrdPairs (fun a b =>
       ini_match a.(ini_file) a.(ini_section) a.(ini_key) a.(ie_mod_key) b = false) rows) /\
  (forall rows, st.(gsv_edits) = Some rows ->
     ForallOrdPairs (fun a b => gsv_match a.(gsv_key) a.(ge_mod_key) b = false) rows).

(** No ownership record, in any of the three tables, is owned by [k]. *)
Definition no_records_of (st : Store) (k : string) : Prop :=
  (forall rows r, st.(file_owners) = Some rows -> In r rows -> r.(fo_mod_key) <> k)
  /\ (forall rows r, st.(ini_edits) = Some rows -> In r rows -> r.(ie_mod_key) <> k)
  /\ (forall rows r, st.(gsv_edits) = Some rows -> In r rows -> r.(ge_mod_key) <> k).

End Dml.

(* ------------------------------------------------------------------ *)
(** ** The install ledger over the store

    The repository declares the ledger only as the [InstallLog] trait
    (crates/nmm-core/src/install_log.rs); the operations below are modelled
    from the spec, issuing the row statements above against the [DDL_V1]
    tables.  Each call is atomic: on an error the store is left as it was. *)

Module Ledger.
Import RStr Store Dml.

(** [nmm_core::InstallLogError]; database errors are reported as [Io]. *)
Inductive InstallLogError :=
| ModNotFound (k : string)
| AlreadyRegistered (k : string)
| EntryNotFound (k : string)
| NoActiveTransaction
| TransactionAlreadyActive
| Io (msg : string).

Inductive Result (A : Type) :=
| Ok (a : A)
| Err (e : InstallLogError).
Arguments Ok {A} a.
Arguments Err {A} e.

(** [ORIGINAL_VALUES_KEY] *)
Definition ORIGINAL_VALUES_KEY : string := "<<ORIGINAL_VALUES>>".

(** Modelled from the spec: one ledger call runs its statements as a unit
    ("succeed completely or have no effect"). *)
Definition run (st : Store) (ds : list Dml) : Store * Result unit :=
  match exec_all st ds with
  | (st', None) => (st', Ok tt)
  | (_, Some e) => (st, Err (Io e))
  end.

(** Modelled from the spec: the next value of the shared sequence counter
    ([install_order_seq]). *)
Definition next_sequence (st : Store) : option Z :=
  match Schema.stored_meta st "install_order_seq" with
  | Some (SInt n) => Some (n + 1)%Z
  | _ => None
  end.

Definition mod_row (key : string) (info : ModInfo.ModInfo) : ModRow :=
  mkmod key info.(ModInfo.file_name) info.(ModInfo.name) info.(ModInfo.version) None None.

(** Modelled from the spec: [add_mod] fails with [AlreadyRegistered] on a
    registered key, and inserts the mod otherwise. *)
Definition add_mod (st : Store) (key : string) (info : ModInfo.ModInfo) : Store * Result unit :=
  if mod_exists st key then (st, Err (AlreadyRegistered key))
  else run st [InsertMod (mod_row key info)].

(** Modelled from the spec: [remove_mod] fails with [ModNotFound] on an
    unknown key and deletes the [mods] row otherwise. *)
Definition remove_mod (st : Store) (key : string) : Store * Result unit :=
  if negb (mod_exists st key) then (st, Err (ModNotFound key))
  else run st [DeleteMod key].

(** Modelled from the spec: [add_data_file] checks the mod is registered,
    draws the next sequence number and inserts the claim. *)
Definition add_data_file (st : Store) (mod_key : string) (file_path : string)
  : Store * Result unit :=
  if negb (mod_exists st mod_key) then (st, Err (ModNotFound mod_key))
  else match next_sequence st with
       | None => (st, Err (Io "install_order_seq"))
       | Some n => run st [SetMetaInt "install_order_seq" n; InsertFile (mkfile file_path mod_key n)]
       end.

(** Modelled from the spec: [remove_data_file] deletes the claim of the
    pair, failing with [ModNotFound] or [EntryNotFound]. *)
Definition remove_data_file (st : Store) (mod_key : string) (file_path : string)
  : Store * Result unit :=
  if negb (mod_exists st mod_key) then (st, Err (ModNotFound mod_key))
  else match st.(file_owners) with
       | Some rows =>
           if existsb (file_match file_path mod_key) rows
           then run st [DeleteFile file_path mod_key]
           else (st, Err (EntryNotFound file_path))
       | None => (st, Err (EntryNotFound file_path))
       end.

(** [ORDER BY install_order DESC] *)
Fixpoint insert_desc (r : FileRow) (l : list FileRow) : list FileRow :=
  match l with
  | [] => [r]
  | x :: xs => if (x.(fo_order) <? r.(fo_order))%Z then r :: x :: xs else x :: insert_desc r xs
  end.

Definition sort_desc (l : list FileRow) : list FileRow := fold_right insert_desc [] l.

(** Modelled from the spec: the claims on a file, newest first
    ([WHERE file_path = ? ORDER BY install_order DESC], [NOCASE]). *)
Definition file_stack (st : Store) (path : string) : list FileRow :=
  match st.(file_owners) with
  | Some rows => sort_desc (filter (fun r => eq_ignore_ascii_case r.(file_path) path) rows)
  | None => []
  end.

(** Modelled from the spec: [get_current_file_owner] is the owner of the
    claim with the highest sequence ([LIMIT 1]). *)
Definition get_current_file_owner (st : Store) (path : string) : option string :=
  option_map fo_mod_key (nth_error (file_stack st path) 0).

(** Modelled from the spec: [get_previous_file_owner] is the owner of the
    claim with the second-highest sequence ([LIMIT 1 OFFSET 1]). *)
Definition get_previous_file_owner (st : Store) (path : string) : option string :=
  option_map fo_mod_key (nth_error (file_stack st path) 1).

(** Modelled from the spec: the sentinel owner is never registered as a
    mod, so the statements of the [log_original_*] family run without the
    parent check of the ownership tables' foreign key ([mod_key REFERENCES
    mods(mod_key)]); the connection's own setting is restored afterwards. *)
Definition run_unregistered (st : Store) (ds : list Dml) : Store * Result unit :=
  let (st', r) := run (set_foreign_keys st false) ds in
  (set_foreign_keys st' st.(foreign_keys), r).

(** Modelled from the spec: the [log_original_*] family inserts a claim
    owned by [ORIGINAL_VALUES_KEY], drawing a sequence number like any
    claim, without consulting the mod registry and without requiring the
    sentinel to be a registered mod. *)
Definition log_original_data_file (st : Store) (path : string) : Store * Result unit :=
  match next_sequence st with
  | None => (st, Err (Io "install_order_seq"))
  | Some n => run_unregistered st [SetMetaInt "install_order_seq" n;
                                   InsertFile (mkfile path ORIGINAL_VALUES_KEY n)]
  end.

Definition log_original_ini_value (st : Store) (edit : IniEdit.IniEdit) (value : string)
  : Store * Result unit :=
  match next_sequence st with
  | None => (st, Err (Io "install_order_seq"))
  | Some n => run_unregistered st [SetMetaInt "install_order_seq" n;
                      InsertIni (mkini edit.(IniEdit.file) edit.(IniEdit.section) edit.(IniEdit.key)
                                       ORIGINAL_VALUES_KEY (Some value) n)]
  end.

Definition log_original_gsv_value (st : Store) (g : string) (value : list N)
  : Store * Result unit :=
  match next_sequence st with
  | None => (st, Err (Io "install_order_seq"))
  | Some n => run_unregistered st [SetMetaInt "install_order_seq" n;
                                   InsertGsv (mkgsv g ORIGINAL_VALUES_KEY (Some value) n)]
  end.

End Ledger.

(* ================================================================== *)
(** * Proofs *)

(* ------------------------------------------------------------------ *)
(** ** ASCII case folding and byte order *)

Module RStrFacts.
Import RStr.

Lemma eq_ignore_ascii_case_spec (a b : string) :
  eq_ignore_ascii_case a b = true <-> to_ascii_lowercase a = to_ascii_lowercase b.
Proof.
  revert b; induction a as [|c a IH]; intros [|d b]; simpl.
  - split; reflexivity.
  - split; discriminate.
  - split; discriminate.
  - rewrite andb_true_iff, Ascii.eqb_eq, IH.
    split.
    + intros [-> ->]; reflexivity.
    + intros H; injection H; auto.
Qed.

Lemma eq_ignore_ascii_case_refl (a : string) : eq_ignore_ascii_case a a = true.
Proof. apply eq_ignore_ascii_case_spec; reflexivity. Qed.

Lemma N_of_ascii_inj (c d : ascii) : N_of_ascii c = N_of_ascii d -> c = d.
Proof.
  intros H; rewrite <- (ascii_N_embedding c), <- (ascii_N_embedding d), H; reflexivity.
Qed.

Lemma cmp_eq_iff (a b : string) : cmp a b = Eq <-> a = b.
Proof.
  revert b; induction a as [|c a IH]; intros [|d b]; simpl;
    try (split; congruence).
  destruct (N.compare (N_of_ascii c) (N_of_ascii d)) eqn:E.
  - apply N.compare_eq_iff, N_of_ascii_inj in E; subst d.
    rewrite IH; split; [intros ->; reflexivity | intros H; injection H; auto].
  - split; [discriminate | intros H; injection H as -> ->; rewrite N.compare_refl in E; discriminate].
  - split; [discriminate | intros H; injection H as -> ->; rewrite N.compare_refl in E; discriminate].
Qed.

Lemma cmp_refl (a : string) : cmp a a = Eq.
Proof. apply cmp_eq_iff; reflexivity. Qed.

Lemma cmp_antisym (a b : string) : cmp b a = CompOpp (cmp a b).
Proof.
  revert b; induction a as [|c a IH]; intros [|d b]; simpl; try reflexivity.
  rewrite (N.compare_antisym (N_of_ascii c) (N_of_ascii d)).
  destruct (N.compare (N_of_ascii c) (N_of_ascii d)); simpl; [apply IH | reflexivity | reflexivity].
Qed.

Lemma cmp_lt_trans (a b c : string) : cmp a b = Lt -> cmp b c = Lt -> cmp a c = Lt.
Proof.
  revert b c; induction a as [|x a IH]; intros [|y b] [|z c]; simpl; try congruence.
  destruct (N.compare (N_of_ascii x) (N_of_ascii y)) eqn:E1;
  destruct (N.compare (N_of_ascii y) (N_of_ascii z)) eqn:E2;
  intros H1 H2; try discriminate.
  - apply N.compare_eq_iff in E1, E2. rewrite E1, E2, N.compare_refl. eauto.
  - apply N.compare_eq_iff in E1. rewrite E1, E2. reflexivity.
  - apply N.compare_eq_iff in E2. rewrite <- E2, E1. reflexivity.
  - rewrite N.compare_lt_iff in E1, E2.
    assert (E : N.compare (N_of_ascii x) (N_of_ascii z) = Lt) by (apply N.compare_lt_iff; lia).
    rewrite E; reflexivity.
Qed.

End RStrFacts.

(* ------------------------------------------------------------------ *)
(** ** [IniEdit]: case-insensitive identity and field order *)

Module IniEditFacts.
Import RStr RStrFacts IniEdit.

(** Lexicographic combination of two comparisons. *)
Definition lex (c1 c2 : comparison) : comparison :=
  match c1 with Eq => c2 | r => r end.

Lemma cmp_lex (a b : IniEdit) :
  cmp a b = lex (RStr.cmp (to_ascii_lowercase a.(file)) (to_ascii_lowercase b.(file)))
                (lex (RStr.cmp (to_ascii_lowercase a.(section)) (to_ascii_lowercase b.(section)))
                     (RStr.cmp (to_ascii_lowercase a.(key)) (to_ascii_lowercase b.(key)))).
Proof. reflexivity. Qed.

Lemma lex_eq_iff (c1 c2 : comparison) : lex c1 c2 = Eq <-> c1 = Eq /\ c2 = Eq.
Proof. destruct c1, c2; simpl; intuition congruence. Qed.

Lemma lex_antisym (c1 c2 : comparison) : CompOpp (lex c1 c2) = lex (CompOpp c1) (CompOpp c2).
Proof. destruct c1; reflexivity. Qed.

(** Transitivity of [lex] headed by a string comparison. *)
Lemma lex_lt_trans (a1 b1 c1 : string) (x y z : comparison) :
  (x = Lt -> y = Lt -> z = Lt) ->
  lex (RStr.cmp a1 b1) x = Lt -> lex (RStr.cmp b1 c1) y = Lt ->
  lex (RStr.cmp a1 c1) z = Lt.
Proof.
  intros T. unfold lex.
  destruct (RStr.cmp a1 b1) eqn:E1; destruct (RStr.cmp b1 c1) eqn:E2;
    intros H1 H2; try discriminate.
  - rewrite cmp_eq_iff in E1, E2. subst b1 c1. rewrite cmp_refl. auto.
  - rewrite cmp_eq_iff in E1. subst b1. rewrite E2. reflexivity.
  - rewrite cmp_eq_iff in E2. subst c1. rewrite E1. reflexivity.
  - rewrite (cmp_lt_trans _ _ _ E1 E2). reflexivity.
Qed.

Lemma eq_iff_lowercase (a b : IniEdit) :
  eq a b = true <-> case_variants a b.
Proof.
  unfold eq, case_variants.
  rewrite !andb_true_iff, !eq_ignore_ascii_case_spec. tauto.
Qed.

Lemma cmp_eq_iff_lowercase (a b : IniEdit) :
  cmp a b = Eq <-> case_variants a b.
Proof.
  rewrite cmp_lex, !lex_eq_iff, !cmp_eq_iff. unfold case_variants. tauto.
Qed.

(** C7.  Coordinates that differ only by ASCII case are equal, feed the
    hasher the same calls and compare [Equal]; the order compares the
    lowered file, then section, then key, and is a total order consistent
    with equality. *)
Theorem ini_edit_case_insensitive_order (a b : IniEdit) :
  (case_variants a b -> eq a b = true /\ hash a = hash b /\ cmp a b = Eq)
  /\ (eq a b = true <-> cmp a b = Eq)
  /\ cmp a b = lex (RStr.cmp (to_ascii_lowercase a.(file)) (to_ascii_lowercase b.(file)))
                   (lex (RStr.cmp (to_ascii_lowercase a.(section)) (to_ascii_lowercase b.(section)))
                        (RStr.cmp (to_ascii_lowercase a.(key)) (to_ascii_lowercase b.(key))))
  /\ cmp b a = CompOpp (cmp a b)
  /\ (forall c, cmp a b = Lt -> cmp b c = Lt -> cmp a c = Lt).
Proof.
  split; [|split; [|split; [|split]]].
  - intros H. split; [apply eq_iff_lowercase; exact H|]. split.
    + destruct H as (Hf & Hs & Hk). unfold hash. rewrite Hf, Hs, Hk. reflexivity.
    + apply cmp_eq_iff_lowercase; exact H.
  - rewrite eq_iff_lowercase, cmp_eq_iff_lowercase. reflexivity.
  - apply cmp_lex.
  - rewrite !cmp_lex, !lex_antisym, <- !cmp_antisym. reflexivity.
  - intros c. rewrite !cmp_lex.
    apply lex_lt_trans, lex_lt_trans, cmp_lt_trans.
Qed.

Lemma ini_edit_case_insensitive_order_witness :
  case_variants (mk "Skyrim.ini" "Display" "bFullScreen") (mk "skyrim.ini" "DISPLAY" "bfullscreen")
  /\ eq (mk "Skyrim.ini" "Display" "bFullScreen") (mk "skyrim.ini" "DISPLAY" "bfullscreen") = true.
Proof.
  assert (H : case_variants (mk "Skyrim.ini" "Display" "bFullScreen")
                            (mk "skyrim.ini" "DISPLAY" "bfullscreen"))
    by (split; [|split]; reflexivity).
  split; [exact H|].
  exact (proj1 (proj1 (ini_edit_case_insensitive_order _ _) H)).
Defined.

(** The repository's [ini_edit_ord_ordering] test. *)
Example ini_edit_ord_ordering :
  cmp (mk "Skyrim.ini" "Display" "bFullScreen") (mk "Skyrim.ini" "General" "sLanguage") = Lt
  /\ cmp (mk "Skyrim.ini" "General" "sLanguage") (mk "SkyrimPrefs.ini" "Display" "iSize W") = Lt.
Proof. split; reflexivity. Qed.

End IniEditFacts.

(* ------------------------------------------------------------------ *)
(** ** [ModInfo::update_from] field by field *)

Module ModInfoFacts.
Import ModInfo.

(** The merge rule of one field, in the words of the spec. *)
Definition option_merged {A} (force : bool) (dst src res : option A) : Prop :=
  ((force = true \/ dst = None) -> res = src) /\ (force = false -> dst <> None -> res = dst).

Definition string_merged (force : bool) (dst src res : string) : Prop :=
  ((force = true \/ dst = EmptyString) -> res = src)
  /\ (force = false -> dst <> EmptyString -> res = dst).

Definition bool_merged (force : bool) (dst src res : bool) : Prop :=
  (force = true -> res = src) /\ (force = false -> res = dst).

Lemma update_option_merged {A} (o : bool) (d s : option A) :
  option_merged o d s (update_option o d s).
Proof.
  unfold option_merged, update_option.
  destruct o, d; simpl; intuition congruence.
Qed.

Lemma update_string_merged (o : bool) (d s : string) :
  string_merged o d s (update_string o d s).
Proof.
  unfold string_merged, update_string.
  destruct o, d; simpl; intuition congruence.
Qed.

Lemma update_bool_merged (o : bool) (d s : bool) :
  bool_merged o d s (update_bool o d s).
Proof. unfold bool_merged, update_bool. destruct o; intuition congruence. Qed.

(** C9.  Every optional and string field takes the source's value when the
    destination is absent/empty or [overwrite_all] holds, and keeps its
    own otherwise; the two boolean flags take the source's value exactly
    when [overwrite_all] holds. *)
Theorem update_from_field_merge (self other : ModInfo) (force : bool) :
  let r := update_from self other force in
  option_merged force self.(id) other.(id) r.(id)
  /\ option_merged force self.(download_id) other.(download_id) r.(download_id)
  /\ string_merged force self.(name) other.(name) r.(name)
  /\ string_merged force self.(file_name) other.(file_name) r.(file_name)
  /\ string_merged force self.(version) other.(version) r.(version)
  /\ option_merged force self.(machine_version) other.(machine_version) r.(machine_version)
  /\ option_merged force self.(author) other.(author) r.(author)
  /\ option_merged force self.(description) other.(description) r.(description)
  /\ option_merged force self.(category_id) other.(category_id) r.(category_id)
  /\ option_merged force self.(custom_category_id) other.(custom_category_id) r.(custom_category_id)
  /\ option_merged force self.(website) other.(website) r.(website)
  /\ option_merged force self.(download_date) other.(download_date) r.(download_date)
  /\ option_merged force self.(install_date) other.(install_date) r.(install_date)
  /\ option_merged force self.(is_endorsed) other.(is_endorsed) r.(is_endorsed)
  /\ option_merged force self.(load_order) other.(load_order) r.(load_order)
  /\ option_merged force self.(last_known_version) other.(last_known_version) r.(last_known_version)
  /\ option_merged force self.(screenshot) other.(screenshot) r.(screenshot)
  /\ bool_merged force self.(update_warning_enabled) other.(update_warning_enabled)
                 r.(update_warning_enabled)
  /\ bool_merged force self.(update_checks_enabled) other.(update_checks_enabled)
                 r.(update_checks_enabled)
  /\ option_merged force self.(new_load_order) other.(new_load_order) r.(new_load_order).
Proof.
  simpl.
  repeat split;
    first [ apply update_option_merged | apply update_string_merged | apply update_bool_merged ].
Qed.

End ModInfoFacts.

(* ------------------------------------------------------------------ *)
(** ** [ModInfo::parse_version] *)

Module VersionFacts.
Import Version.

Lemma split_dot_not_nil (s : string) : split_dot s <> [].
Proof.
  induction s as [|c s IH]; simpl; [discriminate|].
  destruct (is_dot c); [discriminate|].
  destruct (split_dot s); discriminate.
Qed.

Lemma segments_app_empty (l : list string) (k : nat) :
  filter is_nonempty (l ++ repeat EmptyString k)%list = filter is_nonempty l.
Proof.
  rewrite filter_app. induction k as [|k IH]; simpl; [apply app_nil_r | exact IH].
Qed.

(** Trimming the trailing dots drops only trailing empty pieces. *)
Lemma split_dot_trim (s : string) :
  exists k, split_dot s = (split_dot (trim_end_dots s) ++ repeat EmptyString k)%list.
Proof.
  induction s as [|c s IH]; [exists O; reflexivity|].
  destruct IH as [k Hk].
  destruct (trim_end_dots s) as [|x y] eqn:Et.
  - simpl. rewrite Et. destruct (is_dot c) eqn:Ed.
    + exists (S k). simpl in Hk. rewrite Hk. reflexivity.
    + exists k. simpl in Hk. rewrite Hk. simpl. rewrite Ed. reflexivity.
  - assert (Ht : trim_end_dots (String c s) = String c (trim_end_dots s))
      by (simpl; rewrite Et; reflexivity).
    rewrite Ht. rewrite <- Et in Hk. clear Ht Et.
    revert Hk. generalize (trim_end_dots s) as t. intros t Hk.
    exists k. simpl. destruct (is_dot c).
    + rewrite Hk. reflexivity.
    + rewrite Hk. destruct (split_dot t) as [|h tl] eqn:Es.
      * exfalso; exact (split_dot_not_nil _ Es).
      * reflexivity.
Qed.

Lemma segments_trim (s : string) : segments (trim_end_dots s) = segments s.
Proof.
  unfold segments. destruct (split_dot_trim s) as [k Hk].
  rewrite Hk, segments_app_empty. reflexivity.
Qed.

Lemma segments_nil_trim (s : string) : segments s = [] -> trim_end_dots s = EmptyString.
Proof.
  unfold segments.
  induction s as [|c s IH]; simpl; [reflexivity|].
  destruct (is_dot c) eqn:Ed.
  - simpl. intros H. rewrite (IH H). reflexivity.
  - destruct (split_dot s) as [|h tl] eqn:Es.
    + exfalso; exact (split_dot_not_nil _ Es).
    + simpl. discriminate.
Qed.

Lemma starts_with_dot_trim (s : string) :
  segments s <> [] -> starts_with_dot (trim_end_dots s) = starts_with_dot s.
Proof.
  intros Hs. destruct s as [|c s]; [reflexivity|].
  simpl. destruct (trim_end_dots s) eqn:Et.
  - destruct (is_dot c) eqn:Ed; [|simpl; rewrite ?Ed; reflexivity].
    exfalso. apply Hs. rewrite <- segments_trim. simpl. rewrite Et, Ed. reflexivity.
  - reflexivity.
Qed.

Lemma segments_zero_prefix (t : string) :
  starts_with_dot t = true -> segments ("0" ++ t) = "0" :: segments t.
Proof.
  destruct t as [|c t]; [discriminate|]. simpl. intros Hd.
  unfold is_dot in Hd. apply Ascii.eqb_eq in Hd. subst c.
  reflexivity.
Qed.

Lemma clean_nil_segments (s : string) : clean s = EmptyString -> segments (clean s) = [].
Proof. intros ->. reflexivity. Qed.

(** [parse_version] through the cleaned string's non-empty segments. *)
Lemma parse_version_segments (s : string) :
  parse_version s =
  match segments (clean s) with
  | [] => None
  | segs => semver_parse (normalize (if starts_with_dot (clean s) then "0" :: segs else segs))
  end.
Proof.
  unfold parse_version.
  destruct (clean s) as [|ch c'] eqn:Ec; [reflexivity|].
  set (c := String ch c').
  destruct (segments c) as [|g gs] eqn:Hseg.
  - rewrite (segments_nil_trim _ Hseg). reflexivity.
  - assert (Hne : segments c <> []) by (rewrite Hseg; discriminate).
    rewrite (starts_with_dot_trim _ Hne).
    destruct (starts_with_dot c) eqn:Hd.
    + rewrite <- (starts_with_dot_trim _ Hne) in Hd.
      change (filter is_nonempty (split_dot ("0" ++ trim_end_dots c)))
        with (segments ("0" ++ trim_end_dots c)).
      rewrite (segments_zero_prefix _ Hd), segments_trim, Hseg. reflexivity.
    + change (filter is_nonempty (split_dot (trim_end_dots c)))
        with (segments (trim_end_dots c)).
      rewrite segments_trim, Hseg. reflexivity.
Qed.
















End VersionFacts.

(* ------------------------------------------------------------------ *)
(** ** [DDL_V1] and [SEED_V1] statement by statement *)

Module SchemaFacts.
Import Store Schema.

Definition table_eqb (t u : Table) : bool :=
  match t, u with
  | TSchemaMeta, TSchemaMeta | TMods, TMods | TFileOwners, TFileOwners
  | TIniEdits, TIniEdits | TGsvEdits, TGsvEdits => true
  | _, _ => false
  end.

(** The effect of each guarded statement when it succeeds. *)
Definition create_if (st : Store) (t : Table) : Store :=
  if table_exists st t then st else create_empty st t.

Definition add_index (st : Store) (n : string) : Store :=
  if existsb (String.eqb n) st.(indices) then st
  else set_indices st (st.(indices) ++ [n])%list.

Definition seed_if (st : Store) (k : string) (v : Z) : Store :=
  match st.(schema_meta) with
  | None => st
  | Some rows =>
      match meta_lookup rows k with
      | Some _ => st
      | None => set_schema_meta st (Some (rows ++ [mkmeta k (SInt v) SNull])%list)
      end
  end.

Definition ddl_store (st : Store) : Store :=
  add_index (add_index (add_index (add_index (add_index (add_index
    (create_if (create_if (create_if (create_if (create_if st
       TSchemaMeta) TMods) TFileOwners) TIniEdits) TGsvEdits)
    "idx_file_owners_by_path") "idx_file_owners_by_mod")
    "idx_ini_edits_by_key") "idx_ini_edits_by_mod")
    "idx_gsv_edits_by_key") "idx_gsv_edits_by_mod".

Definition seed_store (st : Store) : Store :=
  seed_if (seed_if st "schema_version" 1) "install_order_seq" 0.

Definition index_names : list string :=
  [ "idx_file_owners_by_path"; "idx_file_owners_by_mod"; "idx_ini_edits_by_key";
    "idx_ini_edits_by_mod"; "idx_gsv_edits_by_key"; "idx_gsv_edits_by_mod" ].

(** The version [read_version] reports. *)
Definition version_of (st : Store) : Z :=
  match stored_meta st "schema_version" with Some (SInt v) => v | _ => 0 end.

Lemma exec_create (st : Store) (t : Table) :
  exec_stmt st (CreateTableIfNotExists t) = (create_if st t, None).
Proof. unfold exec_stmt, create_if. destruct (table_exists st t); reflexivity. Qed.

Lemma exec_index (st : Store) (n : string) (t : Table) :
  table_exists st t = true ->
  exec_stmt st (CreateIndexIfNotExists n t) = (add_index st n, None).
Proof.
  intros H. unfold exec_stmt, add_index. rewrite H. simpl.
  destruct (existsb (String.eqb n) st.(indices)); reflexivity.
Qed.

Lemma exec_seed (st : Store) (k : string) (v : Z) :
  st.(schema_meta) <> None ->
  exec_stmt st (InsertOrIgnoreMeta k v) = (seed_if st k v, None).
Proof.
  intros H. unfold exec_stmt, seed_if.
  destruct (schema_meta st) as [rows|]; [|congruence].
  destruct (meta_lookup rows k); reflexivity.
Qed.

Lemma execute_batch_cons_ok (s : Stmt) (ss : list Stmt) (st st' : Store) :
  exec_stmt st s = (st', None) -> execute_batch (s :: ss) st = execute_batch ss st'.
Proof. intros H. simpl. rewrite H. reflexivity. Qed.

Lemma table_exists_create_if (st : Store) (t u : Table) :
  table_exists (create_if st t) u = (table_eqb t u || table_exists st u).
Proof.
  unfold create_if. destruct st as [m1 m2 m3 m4 m5 ix fk].
  destruct t, u, m1, m2, m3, m4, m5; reflexivity.
Qed.

Lemma table_exists_add_index (st : Store) (n : string) (u : Table) :
  table_exists (add_index st n) u = table_exists st u.
Proof.
  unfold add_index. destruct (existsb _ _); [reflexivity|].
  destruct u; reflexivity.
Qed.

Lemma indices_create_if (st : Store) (t : Table) :
  (create_if st t).(indices) = st.(indices).
Proof. unfold create_if. destruct (table_exists st t); [|destruct t]; reflexivity. Qed.

Lemma existsb_add_index (st : Store) (n m : string) :
  existsb (String.eqb m) (add_index st n).(indices)
  = (String.eqb m n || existsb (String.eqb m) st.(indices)).
Proof.
  unfold add_index.
  destruct (existsb (String.eqb n) st.(indices)) eqn:E; simpl.
  - destruct (String.eqb m n) eqn:Emn; [|reflexivity].
    apply String.eqb_eq in Emn. subst m. rewrite E. reflexivity.
  - rewrite existsb_app. simpl. rewrite orb_false_r, orb_comm. reflexivity.
Qed.

Lemma stored_meta_create_if (st : Store) (t : Table) (k : string) :
  stored_meta (create_if st t) k = stored_meta st k.
Proof.
  unfold create_if, stored_meta. destruct st as [m1 m2 m3 m4 m5 ix fk].
  destruct t, m1, m2, m3, m4, m5; reflexivity.
Qed.

Lemma stored_meta_add_index (st : Store) (n k : string) :
  stored_meta (add_index st n) k = stored_meta st k.
Proof. unfold add_index. destruct (existsb _ _); reflexivity. Qed.

Lemma schema_meta_create_if (st : Store) (t : Table) :
  (create_if st t).(schema_meta) = None -> st.(schema_meta) = None.
Proof.
  unfold create_if. destruct st as [m1 m2 m3 m4 m5 ix fk].
  destruct t, m1, m2, m3, m4, m5; simpl; congruence.
Qed.

Lemma execute_ddl (st : Store) : execute_batch DDL_V1 st = (ddl_store st, None).
Proof.
  unfold DDL_V1, ddl_store.
  do 5 (erewrite execute_batch_cons_ok by apply exec_create).
  do 6 (erewrite execute_batch_cons_ok
         by (apply exec_index;
             rewrite ?table_exists_add_index, ?table_exists_create_if; reflexivity)).
  reflexivity.
Qed.

Lemma ddl_tables (st : Store) (t : Table) : table_exists (ddl_store st) t = true.
Proof.
  unfold ddl_store. rewrite ?table_exists_add_index, ?table_exists_create_if.
  destruct t; reflexivity.
Qed.

Lemma ddl_indices (st : Store) (n : string) :
  In n index_names -> existsb (String.eqb n) (ddl_store st).(indices) = true.
Proof.
  intros Hn. unfold ddl_store. rewrite !existsb_add_index.
  simpl in Hn. repeat destruct Hn as [<- | Hn]; [reflexivity ..| destruct Hn].
Qed.

Lemma ddl_stored_meta (st : Store) (k : string) :
  stored_meta (ddl_store st) k = stored_meta st k.
Proof. unfold ddl_store. rewrite ?stored_meta_add_index, ?stored_meta_create_if. reflexivity. Qed.

Lemma ddl_schema_meta (st : Store) : (ddl_store st).(schema_meta) <> None.
Proof.
  pose proof (ddl_tables st TSchemaMeta) as H. simpl in H.
  destruct (schema_meta (ddl_store st)); [discriminate | discriminate H].
Qed.

Lemma meta_lookup_app (rows : list MetaRow) (r : MetaRow) (k : string) :
  meta_lookup (rows ++ [r])%list k =
  match meta_lookup rows k with
  | Some x => Some x
  | None => if String.eqb r.(meta_key) k then Some r else None
  end.
Proof.
  induction rows as [|x rows IH]; simpl; [reflexivity|].
  destruct (String.eqb (meta_key x) k); [reflexivity | exact IH].
Qed.

Lemma stored_meta_seed_if (st : Store) (k k' : string) (v : Z) :
  st.(schema_meta) <> None ->
  stored_meta (seed_if st k v) k' =
  match stored_meta st k' with
  | Some x => Some x
  | None => if String.eqb k k' then Some (SInt v) else None
  end.
Proof.
  intros Hm. unfold seed_if, stored_meta.
  destruct (schema_meta st) as [rows|] eqn:Es; [|congruence].
  destruct (meta_lookup rows k) as [r|] eqn:Ek.
  - rewrite Es. destruct (meta_lookup rows k') as [r'|] eqn:Ek'; [reflexivity|].
    destruct (String.eqb k k') eqn:E; [|reflexivity].
    apply String.eqb_eq in E; subst k'. congruence.
  - simpl. rewrite meta_lookup_app. simpl.
    destruct (meta_lookup rows k'); [reflexivity|].
    destruct (String.eqb k k'); reflexivity.
Qed.

Lemma schema_meta_seed_if (st : Store) (k : string) (v : Z) :
  st.(schema_meta) <> None -> (seed_if st k v).(schema_meta) <> None.
Proof.
  unfold seed_if. destruct (schema_meta st) as [rows|] eqn:Es; [|congruence].
  destruct (meta_lookup rows k); simpl; congruence.
Qed.

Lemma table_exists_seed_if (st : Store) (k : string) (v : Z) (t : Table) :
  table_exists (seed_if st k v) t = table_exists st t.
Proof.
  unfold seed_if. destruct (schema_meta st) as [rows|] eqn:Es; [|reflexivity].
  destruct (meta_lookup rows k); [reflexivity|].
  destruct t; simpl; rewrite ?Es; reflexivity.
Qed.

Lemma indices_seed_if (st : Store) (k : string) (v : Z) :
  (seed_if st k v).(indices) = st.(indices).
Proof.
  unfold seed_if. destruct (schema_meta st) as [rows|]; [|reflexivity].
  destruct (meta_lookup rows k); reflexivity.
Qed.

Lemma execute_seed (st : Store) :
  st.(schema_meta) <> None -> execute_batch SEED_V1 st = (seed_store st, None).
Proof.
  intros H. unfold SEED_V1, seed_store.
  erewrite execute_batch_cons_ok by (apply exec_seed; exact H).
  erewrite execute_batch_cons_ok by (apply exec_seed, schema_meta_seed_if; exact H).
  reflexivity.
Qed.

Lemma create_if_id (st : Store) (t : Table) : table_exists st t = true -> create_if st t = st.
Proof. unfold create_if. intros ->. reflexivity. Qed.

Lemma add_index_id (st : Store) (n : string) :
  existsb (String.eqb n) st.(indices) = true -> add_index st n = st.
Proof. unfold add_index. intros ->. reflexivity. Qed.

Lemma seed_if_id (st : Store) (k : string) (v : Z) :
  stored_meta st k <> None -> seed_if st k v = st.
Proof.
  unfold stored_meta, seed_if. destruct (schema_meta st) as [rows|]; [|reflexivity].
  destruct (meta_lookup rows k); [reflexivity | simpl; congruence].
Qed.

Lemma ddl_store_id (st : Store) :
  (forall t, table_exists st t = true) ->
  (forall n, In n index_names -> existsb (String.eqb n) st.(indices) = true) ->
  ddl_store st = st.
Proof.
  intros HT HI. unfold ddl_store.
  rewrite !(create_if_id st) by apply HT.
  rewrite !(add_index_id st) by (apply HI; simpl; tauto).
  reflexivity.
Qed.

Lemma seed_store_id (st : Store) :
  stored_meta st "schema_version" <> None -> stored_meta st "install_order_seq" <> None ->
  seed_store st = st.
Proof.
  intros H1 H2. unfold seed_store.
  rewrite (seed_if_id st) by exact H1. apply seed_if_id; exact H2.
Qed.

(** The store after the version-1 migration. *)
Definition migrated (st : Store) : Store := seed_store (ddl_store st).

Lemma migrated_tables (st : Store) (t : Table) : table_exists (migrated st) t = true.
Proof. unfold migrated, seed_store. rewrite !table_exists_seed_if. apply ddl_tables. Qed.

Lemma migrated_indices (st : Store) (n : string) :
  In n index_names -> existsb (String.eqb n) (migrated st).(indices) = true.
Proof. unfold migrated, seed_store. rewrite !indices_seed_if. apply ddl_indices. Qed.

Lemma migrated_stored_meta (st : Store) (k : string) :
  stored_meta (migrated st) k =
  match stored_meta st k with
  | Some x => Some x
  | None =>
      if String.eqb "schema_version" k then Some (SInt 1)
      else if String.eqb "install_order_seq" k then Some (SInt 0) else None
  end.
Proof.
  unfold migrated, seed_store.
  rewrite stored_meta_seed_if by (apply schema_meta_seed_if, ddl_schema_meta).
  rewrite stored_meta_seed_if by apply ddl_schema_meta.
  rewrite ddl_stored_meta.
  destruct (stored_meta st k); [reflexivity|].
  destruct (String.eqb "schema_version" k) eqn:E1; [reflexivity|].
  reflexivity.
Qed.

Lemma migrated_id (st : Store) : migrated (migrated st) = migrated st.
Proof.
  unfold migrated at 1.
  rewrite ddl_store_id by (apply migrated_tables || apply migrated_indices).
  apply seed_store_id; rewrite migrated_stored_meta;
    destruct (stored_meta st _); simpl; discriminate.
Qed.

Lemma read_version_spec (st : Store) : read_version st = Ok (version_of st).
Proof.
  unfold read_version, version_of, stored_meta.
  destruct (schema_meta st) as [rows|]; [|reflexivity].
  destruct (meta_lookup rows "schema_version") as [r|]; [|reflexivity].
  simpl. destruct (int_value r); reflexivity.
Qed.

Lemma apply_spec (st : Store) :
  apply st =
  if (version_of st >? CURRENT_VERSION)%Z
  then (st, Err (UnsupportedSchemaVersion (version_of st) CURRENT_VERSION))
  else if (version_of st =? CURRENT_VERSION)%Z then (st, Ok tt)
  else (migrated st, Ok tt).
Proof.
  unfold apply. rewrite read_version_spec.
  destruct (version_of st >? CURRENT_VERSION)%Z eqn:E1; [reflexivity|].
  destruct (version_of st =? CURRENT_VERSION)%Z eqn:E2; [reflexivity|].
  unfold CURRENT_VERSION in *.
  assert (Hlt : (version_of st <? 1)%Z = true) by lia.
  rewrite Hlt, execute_ddl, execute_seed by apply ddl_schema_meta. reflexivity.
Qed.

Lemma version_of_migrated (st : Store) :
  version_of (migrated st) =
  match stored_meta st "schema_version" with None => 1 | Some _ => version_of st end%Z.
Proof.
  unfold version_of. rewrite migrated_stored_meta.
  destruct (stored_meta st "schema_version"); reflexivity.
Qed.

(** A second [apply] leaves the store of the first one as it is. *)
Lemma apply_fixpoint (st : Store) : fst (apply (fst (apply st))) = fst (apply st).
Proof.
  rewrite (apply_spec st).
  destruct (version_of st >? CURRENT_VERSION)%Z eqn:E1.
  - simpl. rewrite apply_spec, E1. reflexivity.
  - destruct (version_of st =? CURRENT_VERSION)%Z eqn:E2.
    + simpl. rewrite apply_spec, E1, E2. reflexivity.
    + simpl. rewrite (apply_spec (migrated st)), version_of_migrated.
      unfold CURRENT_VERSION in *.
      destruct (stored_meta st "schema_version").
      * rewrite E1, E2. simpl. apply migrated_id.
      * reflexivity.
Qed.

Lemma apply_times_fixpoint (n : nat) (st : Store) :
  fst (apply st) = st -> apply_times n st = st.
Proof.
  intros H. induction n as [|n IH]; simpl; [reflexivity|]. rewrite H. exact IH.
Qed.

End SchemaFacts.

Module SchemaClaims.
Import Store Schema SchemaFacts.

Lemma version_of_current (st : Store) :
  version_of st = CURRENT_VERSION ->
  stored_meta st "schema_version" = Some (SInt CURRENT_VERSION).
Proof.
  unfold version_of, CURRENT_VERSION.
  destruct (stored_meta st "schema_version") as [[| v | |]|]; intros H;
    try discriminate; subst; reflexivity.
Qed.

(** C3: when the stored [schema_version] is an integer [v] above
    [CURRENT_VERSION], [apply] fails with
    [UnsupportedSchemaVersion {found: v, max: CURRENT_VERSION}] and returns
    the store exactly as it was. *)
Theorem apply_rejects_future_version (st : Store) (v : Z)
  (Hv : stored_meta st "schema_version" = Some (SInt v))
  (Hgt : (v > CURRENT_VERSION)%Z) :
  apply st = (st, Err (UnsupportedSchemaVersion v CURRENT_VERSION)).
Proof.
  rewrite apply_spec.
  assert (E : version_of st = v) by (unfold version_of; rewrite Hv; reflexivity).
  rewrite E. replace (v >? CURRENT_VERSION)%Z with true by lia. reflexivity.
Qed.

Lemma apply_rejects_future_version_witness :
  stored_meta (mkstore (Some [mkmeta "schema_version" (SInt 9999) SNull]) None None None None [] true)
    "schema_version" = Some (SInt 9999) /\
  (9999 > CURRENT_VERSION)%Z /\
  apply (mkstore (Some [mkmeta "schema_version" (SInt 9999) SNull]) None None None None [] true) =
  (mkstore (Some [mkmeta "schema_version" (SInt 9999) SNull]) None None None None [] true,
   Err (UnsupportedSchemaVersion 9999 CURRENT_VERSION)).
Proof.
  assert (Hv : stored_meta (mkstore (Some [mkmeta "schema_version" (SInt 9999) SNull])
                 None None None None [] true) "schema_version" = Some (SInt 9999))
    by reflexivity.
  assert (Hgt : (9999 > CURRENT_VERSION)%Z) by (unfold CURRENT_VERSION; lia).
  split; [exact Hv | split; [exact Hgt |]].
  exact (apply_rejects_future_version _ 9999 Hv Hgt).
Defined.

(** C4: running [apply] [n >= 1] times in succession leaves the same store
    as running it once, and on a store whose [schema_version] already equals
    [CURRENT_VERSION] [apply] succeeds and changes nothing. *)
Theorem schema_apply_idempotent (n : nat) (st : Store) (Hn : (1 <= n)%nat) :
  apply_times n st = fst (apply st) /\
  (stored_meta st "schema_version" = Some (SInt CURRENT_VERSION) -> apply st = (st, Ok tt)).
Proof.
  split.
  - destruct n as [|m]; [lia|]. simpl. apply apply_times_fixpoint, apply_fixpoint.
  - intros Hv. rewrite apply_spec.
    assert (E : version_of st = CURRENT_VERSION)
      by (unfold version_of; rewrite Hv; reflexivity).
    rewrite E, Z.gtb_ltb, Z.ltb_irrefl, Z.eqb_refl. reflexivity.
Qed.

Lemma schema_apply_idempotent_witness :
  (1 <= 3)%nat /\ apply_times 3 (empty_store true) = fst (apply (empty_store true)).
Proof.
  assert (Hn : (1 <= 3)%nat) by lia.
  split; [exact Hn |].
  exact (proj1 (schema_apply_idempotent 3 (empty_store true) Hn)).
Defined.

(** C5 (counterexample): a store whose [schema_meta] already holds
    [schema_version = 0] is accepted by [apply], which succeeds while the
    stored version stays 0; and a store holding [schema_version = 1] but no
    [install_order_seq] row is accepted with the counter still absent. *)
Lemma apply_success_meta_counterexample :
  apply (mkstore (Some [mkmeta "schema_version" (SInt 0) SNull]) None None None None [] true)
  = (fst (apply (mkstore (Some [mkmeta "schema_version" (SInt 0) SNull]) None None None None [] true)),
     Ok tt) /\
  stored_meta (fst (apply (mkstore (Some [mkmeta "schema_version" (SInt 0) SNull])
                             None None None None [] true))) "schema_version" = Some (SInt 0) /\
  apply (mkstore (Some [mkmeta "schema_version" (SInt 1) SNull]) None None None None [] true)
  = (mkstore (Some [mkmeta "schema_version" (SInt 1) SNull]) None None None None [] true, Ok tt) /\
  stored_meta (mkstore (Some [mkmeta "schema_version" (SInt 1) SNull]) None None None None [] true)
    "install_order_seq" = None.
Proof. vm_compute. repeat split. Qed.

(** C5 (amended): when [apply] succeeds, either the stored
    [schema_version] already was [CURRENT_VERSION] and the store is returned
    unchanged, or the version-1 DDL and seed ran: every table exists, and the
    [schema_version] and [install_order_seq] rows exist, each keeping the
    value it had if it was already present and otherwise set to
    [CURRENT_VERSION] and 0. *)
Theorem apply_success_meta (st st' : Store) (H : apply st = (st', Ok tt)) :
  (stored_meta st "schema_version" = Some (SInt CURRENT_VERSION) /\ st' = st) \/
  (st' = migrated st /\
   (forall t, table_exists st' t = true) /\
   stored_meta st' "schema_version" =
     match stored_meta st "schema_version" with
     | Some x => Some x | None => Some (SInt CURRENT_VERSION) end /\
   stored_meta st' "install_order_seq" =
     match stored_meta st "install_order_seq" with
     | Some x => Some x | None => Some (SInt 0) end).
Proof.
  rewrite apply_spec in H.
  destruct (version_of st >? CURRENT_VERSION)%Z eqn:E1; [discriminate|].
  destruct (version_of st =? CURRENT_VERSION)%Z eqn:E2.
  - injection H as <-. left. split; [|reflexivity].
    apply version_of_current. lia.
  - injection H as <-. right. split; [reflexivity|]. split; [apply migrated_tables|].
    rewrite !migrated_stored_meta. split; reflexivity.
Qed.

Lemma apply_success_meta_witness :
  exists st', apply (empty_store true) = (st', Ok tt) /\
  ((stored_meta (empty_store true) "schema_version" = Some (SInt CURRENT_VERSION) /\
    st' = empty_store true) \/
   (st' = migrated (empty_store true) /\
    (forall t, table_exists st' t = true) /\
    stored_meta st' "schema_version" =
      match stored_meta (empty_store true) "schema_version" with
      | Some x => Some x | None => Some (SInt CURRENT_VERSION) end /\
    stored_meta st' "install_order_seq" =
      match stored_meta (empty_store true) "install_order_seq" with
      | Some x => Some x | None => Some (SInt 0) end)).
Proof.
  exists (fst (apply (empty_store true))).
  assert (H : apply (empty_store true) = (fst (apply (empty_store true)), Ok tt))
    by (vm_compute; reflexivity).
  split; [exact H |].
  exact (apply_success_meta _ _ H).
Defined.

(** C10 (counterexample): a [schema_meta] row [schema_version] whose
    [int_value] is NULL is read as version 0 and [apply] succeeds, but the
    row keeps its NULL value: the stored version does not become
    [CURRENT_VERSION]. *)
Lemma read_version_fallback_counterexample :
  read_version (mkstore (Some [mkmeta "schema_version" SNull SNull]) None None None None [] true)
    = Ok 0%Z /\
  snd (apply (mkstore (Some [mkmeta "schema_version" SNull SNull]) None None None None [] true))
    = Ok tt /\
  stored_meta (fst (apply (mkstore (Some [mkmeta "schema_version" SNull SNull])
                             None None None None [] true))) "schema_version" = Some SNull.
Proof. vm_compute. repeat split. Qed.

(** C10 (amended): when no integer [schema_version] is stored (no row, no
    table, or a NULL, text or blob value), [read_version] returns 0 and
    [apply] runs the version-1 DDL and seed and succeeds; afterwards every
    table exists, and the [schema_version] row is [CURRENT_VERSION] if it
    was absent and keeps its old non-integer value otherwise. *)
Theorem read_version_fallback_fresh (st : Store)
  (Hv : forall v, stored_meta st "schema_version" <> Some (SInt v)) :
  read_version st = Ok 0%Z /\
  apply st = (migrated st, Ok tt) /\
  (forall t, table_exists (migrated st) t = true) /\
  stored_meta (migrated st) "schema_version" =
    match stored_meta st "schema_version" with
    | None => Some (SInt CURRENT_VERSION) | Some x => Some x end.
Proof.
  assert (E : version_of st = 0%Z).
  { unfold version_of. destruct (stored_meta st "schema_version") as [[| v | |]|];
      try reflexivity. exfalso. exact (Hv v eq_refl). }
  split; [rewrite read_version_spec, E; reflexivity|].
  split; [rewrite apply_spec, E; reflexivity|].
  split; [apply migrated_tables|].
  rewrite migrated_stored_meta. destruct (stored_meta st "schema_version"); reflexivity.
Qed.

Lemma read_version_fallback_fresh_witness :
  (forall v, stored_meta (mkstore (Some []) None None None None [] true) "schema_version"
             <> Some (SInt v)) /\
  read_version (mkstore (Some []) None None None None [] true) = Ok 0%Z /\
  apply (mkstore (Some []) None None None None [] true) =
    (migrated (mkstore (Some []) None None None None [] true), Ok tt).
Proof.
  assert (Hv : forall v, stored_meta (mkstore (Some []) None None None None [] true)
                           "schema_version" <> Some (SInt v))
    by (intros v; vm_compute; discriminate).
  split; [exact Hv |].
  destruct (read_version_fallback_fresh _ Hv) as [H1 [H2 _]].
  split; [exact H1 | exact H2].
Defined.

End SchemaClaims.

(* ------------------------------------------------------------------ *)
(** ** Ledger operations, statement by statement *)

Module LedgerFacts.
Import RStr Store Dml Ledger RStrFacts.

Lemma sort_desc_nil (l : list FileRow) : sort_desc l = [] -> l = [].
Proof.
  destruct l as [|x l]; [reflexivity|]. simpl.
  destruct (sort_desc l) as [|y ys]; simpl; [discriminate|].
  destruct (fo_order y <? fo_order x)%Z; discriminate.
Qed.

Lemma filter_nil_false {X} (f : X -> bool) (l : list X) :
  filter f l = [] -> forall x, In x l -> f x = false.
Proof.
  induction l as [|y l IH]; simpl; [tauto|].
  destruct (f y) eqn:E; [discriminate|]. intros H x [<-|Hx]; auto.
Qed.

Lemma filter_all_true {X} (f : X -> bool) (l : list X) :
  (forall x, In x l -> f x = true) -> filter f l = l.
Proof.
  induction l as [|y l IH]; simpl; [reflexivity|]. intros H.
  rewrite (H y (or_introl eq_refl)), IH by auto. reflexivity.
Qed.

Lemma meta_lookup_set (rows : list MetaRow) (k : string) (v : Z) :
  meta_lookup (map (fun m => if String.eqb m.(meta_key) k
                             then mkmeta k (SInt v) m.(text_value) else m) rows) k =
  option_map (fun m => mkmeta k (SInt v) m.(text_value)) (meta_lookup rows k).
Proof.
  induction rows as [|m rows IH]; simpl; [reflexivity|].
  destruct (String.eqb (meta_key m) k) eqn:E; simpl.
  - rewrite String.eqb_refl. reflexivity.
  - rewrite E. exact IH.
Qed.

Lemma stored_meta_set_meta_int (st : Store) (rows : list MetaRow) (k : string) (v : Z) :
  st.(schema_meta) = Some rows -> Schema.stored_meta st k <> None ->
  Schema.stored_meta (set_schema_meta st (Some (set_meta_int rows k v))) k = Some (SInt v).
Proof.
  unfold Schema.stored_meta, set_meta_int. intros -> H. simpl.
  rewrite meta_lookup_set. destruct (meta_lookup rows k); [reflexivity | now elim H].
Qed.

Lemma next_sequence_some (st : Store) (c : Z) :
  Schema.stored_meta st "install_order_seq" = Some (SInt c) ->
  next_sequence st = Some (c + 1)%Z /\ exists rows, st.(schema_meta) = Some rows.
Proof.
  unfold next_sequence. intros H. rewrite H. split; [reflexivity|].
  unfold Schema.stored_meta in H. destruct (schema_meta st) as [rows|]; [eauto | discriminate].
Qed.

Lemma add_mod_ok (st : Store) (k : string) (info : ModInfo.ModInfo) (ms : list ModRow) :
  st.(mods) = Some ms -> mod_exists st k = false ->
  add_mod st k info = (set_mods st (Some (ms ++ [mod_row k info])%list), Ok tt).
Proof.
  intros Hm Hk. unfold add_mod. rewrite Hk. unfold run. simpl. rewrite Hm.
  unfold mod_exists in Hk. rewrite Hm in Hk. simpl. rewrite Hk. reflexivity.
Qed.

Lemma mod_exists_add (st : Store) (ms : list ModRow) (r : ModRow) (k : string) :
  st.(mods) = Some ms ->
  mod_exists (set_mods st (Some (ms ++ [r])%list)) k
  = mod_exists st k || String.eqb r.(mod_key) k.
Proof.
  unfold mod_exists. intros ->. simpl. rewrite existsb_app. simpl. rewrite orb_false_r.
  reflexivity.
Qed.

Lemma insert_file_ok (st : Store) (rows : list FileRow) (r : FileRow) :
  st.(file_owners) = Some rows ->
  existsb (file_match r.(file_path) r.(fo_mod_key)) rows = false ->
  fk_violation st r.(fo_mod_key) = false ->
  exec_dml st (InsertFile r) = (set_file_owners st (Some (rows ++ [r])%list), None).
Proof. intros H1 H2 H3. simpl. rewrite H1, H2, H3. reflexivity. Qed.

Lemma exec_all_cons_ok (st st' : Store) (d : Dml) (ds : list Dml) :
  exec_dml st d = (st', None) -> exec_all st (d :: ds) = exec_all st' ds.
Proof. intros H. cbn [exec_all]. rewrite H. reflexivity. Qed.

Lemma set_meta_int_ok (st : Store) (rows : list MetaRow) (k : string) (v : Z) :
  st.(schema_meta) = Some rows ->
  exec_dml st (SetMetaInt k v) = (set_schema_meta st (Some (set_meta_int rows k v)), None).
Proof. intros H. simpl. rewrite H. reflexivity. Qed.

Lemma add_data_file_ok (st : Store) (k path : string) (metas : list MetaRow)
  (rows : list FileRow) (c : Z) :
  mod_exists st k = true -> st.(schema_meta) = Some metas ->
  Schema.stored_meta st "install_order_seq" = Some (SInt c) ->
  st.(file_owners) = Some rows -> existsb (file_match path k) rows = false ->
  add_data_file st k path =
  (set_file_owners (set_schema_meta st (Some (set_meta_int metas "install_order_seq" (c + 1))))
     (Some (rows ++ [mkfile path k (c + 1)])%list), Ok tt).
Proof.
  intros Hk Hs Hc Hf Hx. unfold add_data_file. rewrite Hk. simpl negb. cbv iota.
  destruct (next_sequence_some st c Hc) as [-> _].
  unfold run. rewrite (exec_all_cons_ok _ _ _ _ (set_meta_int_ok st metas _ _ Hs)).
  assert (Hfk : fk_violation (set_schema_meta st (Some (set_meta_int metas "install_order_seq" (c + 1)))) k = false).
  { unfold fk_violation. change (mod_exists (set_schema_meta st _) k) with (mod_exists st k).
    rewrite Hk, andb_false_r. reflexivity. }
  rewrite (exec_all_cons_ok _ _ _ _ (insert_file_ok (set_schema_meta st (Some (set_meta_int metas "install_order_seq" (c + 1)))) rows (mkfile path k (c + 1)) Hf Hx Hfk)).
  reflexivity.
Qed.

Lemma remove_data_file_ok (st : Store) (k path : string) (rows : list FileRow) :
  mod_exists st k = true -> st.(file_owners) = Some rows ->
  existsb (file_match path k) rows = true ->
  remove_data_file st k path =
  (set_file_owners st (Some (filter (fun r => negb (file_match path k r)) rows)), Ok tt).
Proof.
  intros Hk Hf Hx. unfold remove_data_file. rewrite Hk, Hf, Hx. simpl.
  unfold run. simpl. rewrite Hf. reflexivity.
Qed.

Lemma file_stack_rows (st : Store) (rows : list FileRow) (path : string) :
  st.(file_owners) = Some rows ->
  file_stack st path = sort_desc (filter (fun r => eq_ignore_ascii_case r.(file_path) path) rows).
Proof. unfold file_stack. intros ->. reflexivity. Qed.

Lemma stored_meta_set_file_owners (st : Store) (x : option (list FileRow)) (k : string) :
  Schema.stored_meta (set_file_owners st x) k = Schema.stored_meta st k.
Proof. reflexivity. Qed.

Lemma insert_ini_ok (st : Store) (rows : list IniRow) (r : IniRow) :
  st.(ini_edits) = Some rows ->
  existsb (ini_match r.(ini_file) r.(ini_section) r.(ini_key) r.(ie_mod_key)) rows = false ->
  exec_dml st (InsertIni r) =
  (if fk_violation st r.(ie_mod_key) then (st, fk_failed)
   else (set_ini_edits st (Some (rows ++ [r])%list), None)).
Proof. intros H1 H2. simpl. rewrite H1, H2. reflexivity. Qed.

Lemma insert_file_fk (st : Store) (rows : list FileRow) (r : FileRow) :
  st.(file_owners) = Some rows ->
  existsb (file_match r.(file_path) r.(fo_mod_key)) rows = false ->
  exec_dml st (InsertFile r) =
  (if fk_violation st r.(fo_mod_key) then (st, fk_failed)
   else (set_file_owners st (Some (rows ++ [r])%list), None)).
Proof. intros H1 H2. simpl. rewrite H1, H2. reflexivity. Qed.

Lemma insert_gsv_ok (st : Store) (rows : list GsvRow) (r : GsvRow) :
  st.(gsv_edits) = Some rows ->
  existsb (gsv_match r.(gsv_key) r.(ge_mod_key)) rows = false ->
  exec_dml st (InsertGsv r) =
  (if fk_violation st r.(ge_mod_key) then (st, fk_failed)
   else (set_gsv_edits st (Some (rows ++ [r])%list), None)).
Proof. intros H1 H2. simpl. rewrite H1, H2. reflexivity. Qed.

Lemma run_meta_then (st : Store) (metas : list MetaRow) (n : Z) (d : Dml) :
  st.(schema_meta) = Some metas ->
  run st [SetMetaInt "install_order_seq" n; d] =
  match exec_dml (set_schema_meta st (Some (set_meta_int metas "install_order_seq" n))) d with
  | (st', None) => (st', Ok tt)
  | (_, Some e) => (st, Err (Io e))
  end.
Proof.
  intros Hs. unfold run. rewrite (exec_all_cons_ok _ _ _ _ (set_meta_int_ok st metas _ _ Hs)).
  cbn [exec_all]. destruct (exec_dml _ d) as [st' [e|]]; reflexivity.
Qed.

Lemma exec_dml_foreign_keys (st : Store) (d : Dml) :
  (fst (exec_dml st d)).(foreign_keys) = st.(foreign_keys).
Proof.
  destruct d; simpl;
    repeat match goal with
           | |- context [match ?x with _ => _ end] => destruct x eqn:?
           end; try reflexivity; cbn; congruence.
Qed.

Lemma mod_exists_update (st : Store) (ms : list ModRow) (r : ModRow) (k : string) :
  st.(mods) = Some ms ->
  mod_exists (set_mods st (Some (map (fun m => if String.eqb m.(mod_key) r.(mod_key) then r else m) ms))) k
  = mod_exists st k.
Proof.
  unfold mod_exists. intros ->. simpl. induction ms as [|m ms IH]; simpl; [reflexivity|].
  rewrite IH. destruct (String.eqb (mod_key m) (mod_key r)) eqn:E; [|reflexivity].
  apply String.eqb_eq in E. rewrite E. reflexivity.
Qed.

Lemma mod_exists_delete (st : Store) (ms : list ModRow) (k k' : string) :
  st.(mods) = Some ms ->
  mod_exists (set_mods st (Some (filter (fun m => negb (String.eqb m.(mod_key) k)) ms))) k'
  = mod_exists st k' && negb (String.eqb k' k).
Proof.
  unfold mod_exists. intros ->. simpl. induction ms as [|m ms IH]; simpl; [reflexivity|].
  destruct (String.eqb (mod_key m) k) eqn:E; simpl.
  - rewrite IH. apply String.eqb_eq in E. subst k.
    destruct (String.eqb (mod_key m) k') eqn:E'; simpl; [|reflexivity].
    apply String.eqb_eq in E'. subst k'. rewrite String.eqb_refl, andb_false_r. reflexivity.
  - rewrite IH. destruct (String.eqb (mod_key m) k') eqn:E'; simpl; [|reflexivity].
    apply String.eqb_eq in E'. subst k'. rewrite E. reflexivity.
Qed.

(** The invariant of a store whose tables and registry are related to
    those of an earlier store. *)
Lemma owners_registered_step (st st' : Store) :
  owners_registered st ->
  (forall rows' r, st'.(file_owners) = Some rows' -> In r rows' ->
     mod_exists st' r.(fo_mod_key) = true \/
     ((exists rows, st.(file_owners) = Some rows /\ In r rows) /\
      (mod_exists st r.(fo_mod_key) = true -> mod_exists st' r.(fo_mod_key) = true))) ->
  (forall rows' r, st'.(ini_edits) = Some rows' -> In r rows' ->
     mod_exists st' r.(ie_mod_key) = true \/
     ((exists rows, st.(ini_edits) = Some rows /\ In r rows) /\
      (mod_exists st r.(ie_mod_key) = true -> mod_exists st' r.(ie_mod_key) = true))) ->
  (forall rows' r, st'.(gsv_edits) = Some rows' -> In r rows' ->
     mod_exists st' r.(ge_mod_key) = true \/
     ((exists rows, st.(gsv_edits) = Some rows /\ In r rows) /\
      (mod_exists st r.(ge_mod_key) = true -> mod_exists st' r.(ge_mod_key) = true))) ->
  owners_registered st'.
Proof.
  intros [Hf [Hi Hg]] Hf' Hi' Hg'. split; [|split].
  - intros rows' r E Hin. destruct (Hf' rows' r E Hin) as [H | [[rows [E0 Hin0]] H]];
      [exact H | apply H, (Hf rows r E0 Hin0)].
  - intros rows' r E Hin. destruct (Hi' rows' r E Hin) as [H | [[rows [E0 Hin0]] H]];
      [exact H | apply H, (Hi rows r E0 Hin0)].
  - intros rows' r E Hin. destruct (Hg' rows' r E Hin) as [H | [[rows [E0 Hin0]] H]];
      [exact H | apply H, (Hg rows r E0 Hin0)].
Qed.

Ltac same_table :=
  intros ?rows' ?r ?E ?Hin; right; split; [eexists; split; [exact E | exact Hin] | auto].

Ltac app_table H :=
  intros ?rows' ?r ?E ?Hin; simpl in E; injection E as <-;
  apply in_app_or in Hin; destruct Hin as [Hin | [<- | []]];
  [right; split; [eexists; split; [eassumption | exact Hin] | auto] | left; exact H].

Ltac filter_table :=
  intros ?rows' ?r ?E ?Hin; simpl in E; injection E as <-;
  apply filter_In in Hin; destruct Hin as [Hin _];
  right; split; [eexists; split; [eassumption | exact Hin] | auto].

Lemma exec_dml_owners_registered (st : Store) (d : Dml) :
  st.(foreign_keys) = true -> owners_registered st -> owners_registered (fst (exec_dml st d)).
Proof.
  intros Hfk Hinv.
  destruct d as [r|r|k|r|path k|r|f s key k|r|g k|k v]; simpl.
  - (* InsertMod *)
    destruct (mods st) as [ms|] eqn:Em; [|exact Hinv].
    destruct (existsb _ ms); [exact Hinv|].
    apply (owners_registered_step st); [exact Hinv | same_table .. ];
      intros H; cbn [fst]; rewrite mod_exists_add by exact Em; rewrite H; reflexivity.
  - (* UpdateMod *)
    destruct (mods st) as [ms|] eqn:Em; [|exact Hinv].
    apply (owners_registered_step st); [exact Hinv | same_table .. ];
      cbn [fst]; rewrite mod_exists_update by exact Em; auto.
  - (* DeleteMod *)
    destruct (mods st) as [ms|] eqn:Em; [|exact Hinv]. rewrite Hfk.
    destruct Hinv as [Hf [Hi Hg]]. unfold cascade. split; [|split].
    + intros rows' r E Hin. simpl in E.
      destruct (file_owners st) as [rows|]; [|discriminate]. injection E as <-.
      apply filter_In in Hin as [Hin Hk]. apply negb_true_iff in Hk.
      change (mod_exists (set_mods st (Some (filter (fun m => negb (String.eqb m.(mod_key) k)) ms)))
                (fo_mod_key r) = true).
      rewrite mod_exists_delete by exact Em. rewrite (Hf rows r eq_refl Hin), Hk. reflexivity.
    + intros rows' r E Hin. simpl in E.
      destruct (ini_edits st) as [rows|]; [|discriminate]. injection E as <-.
      apply filter_In in Hin as [Hin Hk]. apply negb_true_iff in Hk.
      change (mod_exists (set_mods st (Some (filter (fun m => negb (String.eqb m.(mod_key) k)) ms)))
                (ie_mod_key r) = true).
      rewrite mod_exists_delete by exact Em. rewrite (Hi rows r eq_refl Hin), Hk. reflexivity.
    + intros rows' r E Hin. simpl in E.
      destruct (gsv_edits st) as [rows|]; [|discriminate]. injection E as <-.
      apply filter_In in Hin as [Hin Hk]. apply negb_true_iff in Hk.
      change (mod_exists (set_mods st (Some (filter (fun m => negb (String.eqb m.(mod_key) k)) ms)))
                (ge_mod_key r) = true).
      rewrite mod_exists_delete by exact Em. rewrite (Hg rows r eq_refl Hin), Hk. reflexivity.
  - (* InsertFile *)
    destruct (file_owners st) as [rows|] eqn:Ef; [|exact Hinv].
    destruct (existsb _ rows); [exact Hinv|].
    destruct (fk_violation st (fo_mod_key r)) eqn:Ev; [exact Hinv|].
    unfold fk_violation in Ev. rewrite Hfk in Ev. apply negb_false_iff in Ev.
    apply (owners_registered_step st); [exact Hinv | app_table Ev | same_table | same_table].
  - (* DeleteFile *)
    destruct (file_owners st) as [rows|] eqn:Ef; [|exact Hinv].
    apply (owners_registered_step st); [exact Hinv | filter_table | same_table | same_table].
  - (* InsertIni *)
    destruct (ini_edits st) as [rows|] eqn:Ef; [|exact Hinv].
    destruct (existsb _ rows); [exact Hinv|].
    destruct (fk_violation st (ie_mod_key r)) eqn:Ev; [exact Hinv|].
    unfold fk_violation in Ev. rewrite Hfk in Ev. apply negb_false_iff in Ev.
    apply (owners_registered_step st); [exact Hinv | same_table | app_table Ev | same_table].
  - (* DeleteIni *)
    destruct (ini_edits st) as [rows|] eqn:Ef; [|exact Hinv].
    apply (owners_registered_step st); [exact Hinv | same_table | filter_table | same_table].
  - (* InsertGsv *)
    destruct (gsv_edits st) as [rows|] eqn:Ef; [|exact Hinv].
    destruct (existsb _ rows); [exact Hinv|].
    destruct (fk_violation st (ge_mod_key r)) eqn:Ev; [exact Hinv|].
    unfold fk_violation in Ev. rewrite Hfk in Ev. apply negb_false_iff in Ev.
    apply (owners_registered_step st); [exact Hinv | same_table | same_table | app_table Ev].
  - (* DeleteGsv *)
    destruct (gsv_edits st) as [rows|] eqn:Ef; [|exact Hinv].
    apply (owners_registered_step st); [exact Hinv | same_table | same_table | filter_table].
  - (* SetMetaInt *)
    destruct (schema_meta st) as [rows|]; [|exact Hinv].
    apply (owners_registered_step st); [exact Hinv | same_table .. ].
Qed.

Lemma exec_all_owners_registered (st : Store) (ds : list Dml) :
  st.(foreign_keys) = true -> owners_registered st -> owners_registered (fst (exec_all st ds)).
Proof.
  revert st. induction ds as [|d ds IH]; intros st Hfk Hinv; [exact Hinv|].
  cbn [exec_all].
  pose proof (exec_dml_owners_registered st d Hfk Hinv) as H1.
  pose proof (exec_dml_foreign_keys st d) as H2.
  destruct (exec_dml st d) as [st' [e|]]; simpl in H1, H2; [exact H1|].
  apply IH; [congruence | exact H1].
Qed.

Lemma delete_mod_cascade (st : Store) (k : string) :
  st.(foreign_keys) = true -> st.(mods) <> None ->
  no_records_of (fst (exec_dml st (DeleteMod k))) k /\
  mod_exists (fst (exec_dml st (DeleteMod k))) k = false.
Proof.
  intros Hfk Hm. simpl. destruct (mods st) as [ms|] eqn:Em; [|contradiction].
  rewrite Hfk. unfold cascade. split; [split; [|split]|].
  - intros rows r E Hin. simpl in E. destruct (file_owners st); [|discriminate].
    injection E as <-. apply filter_In in Hin as [_ Hk].
    apply negb_true_iff, String.eqb_neq in Hk. exact Hk.
  - intros rows r E Hin. simpl in E. destruct (ini_edits st); [|discriminate].
    injection E as <-. apply filter_In in Hin as [_ Hk].
    apply negb_true_iff, String.eqb_neq in Hk. exact Hk.
  - intros rows r E Hin. simpl in E. destruct (gsv_edits st); [|discriminate].
    injection E as <-. apply filter_In in Hin as [_ Hk].
    apply negb_true_iff, String.eqb_neq in Hk. exact Hk.
  - change (mod_exists (set_mods st (Some (filter (fun m => negb (String.eqb m.(mod_key) k)) ms))) k
            = false).
    rewrite mod_exists_delete by exact Em. rewrite String.eqb_refl, andb_false_r. reflexivity.
Qed.

Lemma owners_registered_empty (st : Store) :
  st.(file_owners) = Some [] -> st.(ini_edits) = Some [] -> st.(gsv_edits) = Some [] ->
  owners_registered st.
Proof.
  intros Hf Hi Hg. split; [|split]; intros rows r E Hin;
    [rewrite Hf in E | rewrite Hi in E | rewrite Hg in E]; injection E as <-; destruct Hin.
Qed.

End LedgerFacts.

Module LedgerClaims.
Import RStr Store Dml Ledger RStrFacts LedgerFacts.

(** C1: from a store where the mods [A <> B] are unregistered, no claim is
    on [p], and the sequence counter holds an integer, registering [A] and
    [B] and recording the claims of [A] then [B] on [p] all succeed; the
    current owner of [p] is then [B] and the previous one [A]; removing
    [B]'s claim makes [A] the current owner, and removing [A]'s claim leaves
    [p] without owner. *)
Theorem file_owner_stack (st : Store) (ms : list ModRow) (rows : list FileRow) (c : Z)
  (A B p : string) (ia ib : ModInfo.ModInfo)
  (Hm : st.(mods) = Some ms) (Hf : st.(file_owners) = Some rows)
  (Hc : Schema.stored_meta st "install_order_seq" = Some (SInt c))
  (HA : mod_exists st A = false) (HB : mod_exists st B = false) (HAB : A <> B)
  (Hp : file_stack st p = []) :
  exists st1 st2 st3 st4 st5 st6,
    add_mod st A ia = (st1, Ok tt) /\ add_mod st1 B ib = (st2, Ok tt) /\
    add_data_file st2 A p = (st3, Ok tt) /\ add_data_file st3 B p = (st4, Ok tt) /\
    get_current_file_owner st4 p = Some B /\ get_previous_file_owner st4 p = Some A /\
    remove_data_file st4 B p = (st5, Ok tt) /\ get_current_file_owner st5 p = Some A /\
    remove_data_file st5 A p = (st6, Ok tt) /\ get_current_file_owner st6 p = None.
Proof.
  rewrite (file_stack_rows st rows p Hf) in Hp. apply sort_desc_nil in Hp.
  pose proof (filter_nil_false _ _ Hp) as Hrows.
  destruct (next_sequence_some st c Hc) as [_ [metas Hs]].
  apply String.eqb_neq in HAB. pose proof HAB as HBA. rewrite String.eqb_sym in HBA.
  assert (Hx : forall k, existsb (file_match p k) rows = false).
  { intros k. destruct (existsb (file_match p k) rows) eqn:E; [|reflexivity].
    apply existsb_exists in E as [x [Hin Hx]]. pose proof (Hrows x Hin) as Hr. simpl in Hr.
    unfold file_match in Hx. rewrite Hr in Hx. discriminate. }
  assert (Hkeep : forall k, filter (fun r => negb (file_match p k r)) rows = rows).
  { intros k. apply filter_all_true. intros x Hin. pose proof (Hrows x Hin) as Hr. simpl in Hr.
    unfold file_match. rewrite Hr. reflexivity. }
  do 6 eexists.
  split. { apply add_mod_ok; [exact Hm | exact HA]. }
  split. { apply add_mod_ok; [reflexivity|]. rewrite mod_exists_add by exact Hm.
           rewrite HB. exact HAB. }
  split. { eapply add_data_file_ok; [| exact Hs | exact Hc | exact Hf | apply Hx].
           rewrite mod_exists_add by reflexivity. rewrite mod_exists_add by exact Hm.
           rewrite HA. simpl. rewrite String.eqb_refl. reflexivity. }
  split. { eapply add_data_file_ok; [| reflexivity | | reflexivity | ].
           - unfold mod_exists. simpl. rewrite !existsb_app. simpl.
             rewrite String.eqb_refl, !orb_true_r. reflexivity.
           - rewrite stored_meta_set_file_owners.
             apply stored_meta_set_meta_int; [exact Hs |].
             change (Schema.stored_meta st "install_order_seq" <> None). rewrite Hc. discriminate.
           - rewrite existsb_app, Hx. unfold file_match. simpl.
             rewrite eq_ignore_ascii_case_refl, HAB. reflexivity. }
  assert (Hord : (c + 1 + 1 <? c + 1)%Z = false) by lia.
  split. { unfold get_current_file_owner. erewrite file_stack_rows by reflexivity.
           rewrite !filter_app, Hp. simpl. rewrite eq_ignore_ascii_case_refl. simpl.
           rewrite Hord. reflexivity. }
  split. { unfold get_previous_file_owner. erewrite file_stack_rows by reflexivity.
           rewrite !filter_app, Hp. simpl. rewrite eq_ignore_ascii_case_refl. simpl.
           rewrite Hord. reflexivity. }
  split. { eapply remove_data_file_ok; [| reflexivity | ].
           - unfold mod_exists. simpl. rewrite !existsb_app. simpl.
             rewrite String.eqb_refl, !orb_true_r. reflexivity.
           - rewrite !existsb_app. unfold file_match. simpl.
             rewrite eq_ignore_ascii_case_refl, String.eqb_refl, !orb_true_r. reflexivity. }
  split. { unfold get_current_file_owner. erewrite file_stack_rows by reflexivity.
           rewrite !filter_app, Hkeep. simpl. unfold file_match. simpl.
           rewrite eq_ignore_ascii_case_refl, HAB, String.eqb_refl. simpl.
           rewrite Hp, eq_ignore_ascii_case_refl. reflexivity. }
  split. { eapply remove_data_file_ok; [| reflexivity | ].
           - unfold mod_exists. simpl. rewrite !existsb_app. simpl.
             rewrite String.eqb_refl. simpl. rewrite !orb_true_r. reflexivity.
           - rewrite !filter_app, Hkeep, !existsb_app. unfold file_match. simpl.
             rewrite eq_ignore_ascii_case_refl, HAB, String.eqb_refl. simpl.
             rewrite eq_ignore_ascii_case_refl, String.eqb_refl, !orb_true_r. reflexivity. }
  unfold get_current_file_owner. erewrite file_stack_rows by reflexivity.
  rewrite !filter_app, !Hkeep. unfold file_match. simpl.
  rewrite eq_ignore_ascii_case_refl, HAB, String.eqb_refl. simpl.
  rewrite eq_ignore_ascii_case_refl, String.eqb_refl. simpl. rewrite Hp. reflexivity.
Qed.

Lemma file_owner_stack_witness :
  exists st1 st2 st3 st4 st5 st6,
    add_mod (fst (Schema.apply (empty_store true))) "mod1" (ModInfo.new "Mod One" "mod1.7z") = (st1, Ok tt) /\
    add_mod st1 "mod2" (ModInfo.new "Mod Two" "mod2.7z") = (st2, Ok tt) /\
    add_data_file st2 "mod1" "Data/test.dds" = (st3, Ok tt) /\
    add_data_file st3 "mod2" "Data/test.dds" = (st4, Ok tt) /\
    get_current_file_owner st4 "Data/test.dds" = Some "mod2" /\
    get_previous_file_owner st4 "Data/test.dds" = Some "mod1" /\
    remove_data_file st4 "mod2" "Data/test.dds" = (st5, Ok tt) /\
    get_current_file_owner st5 "Data/test.dds" = Some "mod1" /\
    remove_data_file st5 "mod1" "Data/test.dds" = (st6, Ok tt) /\
    get_current_file_owner st6 "Data/test.dds" = None.
Proof.
  apply (file_owner_stack (fst (Schema.apply (empty_store true))) [] [] 0);
    try (vm_compute; reflexivity).
  apply String.eqb_neq. reflexivity.
Defined.

(** C2: each [log_original_*] call draws the next sequence number and
    inserts a claim owned by [ORIGINAL_VALUES_KEY] on its resource; it
    succeeds whether or not the sentinel is registered as a mod and whether
    or not the connection enforces foreign keys, and leaves the mod
    registry as it was. *)
Theorem log_original_sentinel_claim (st : Store) (metas : list MetaRow) (c : Z)
  (Hs : st.(schema_meta) = Some metas)
  (Hc : Schema.stored_meta st "install_order_seq" = Some (SInt c)) :
  (forall path rows, st.(file_owners) = Some rows ->
     existsb (file_match path ORIGINAL_VALUES_KEY) rows = false ->
     log_original_data_file st path =
     (set_file_owners (set_schema_meta st (Some (set_meta_int metas "install_order_seq" (c + 1))))
        (Some (rows ++ [mkfile path ORIGINAL_VALUES_KEY (c + 1)])%list), Ok tt)) /\
  (forall edit value rows, st.(ini_edits) = Some rows ->
     existsb (ini_match edit.(IniEdit.file) edit.(IniEdit.section) edit.(IniEdit.key)
                        ORIGINAL_VALUES_KEY) rows = false ->
     log_original_ini_value st edit value =
     (set_ini_edits (set_schema_meta st (Some (set_meta_int metas "install_order_seq" (c + 1))))
        (Some (rows ++ [mkini edit.(IniEdit.file) edit.(IniEdit.section) edit.(IniEdit.key)
                              ORIGINAL_VALUES_KEY (Some value) (c + 1)])%list), Ok tt)) /\
  (forall g value rows, st.(gsv_edits) = Some rows ->
     existsb (gsv_match g ORIGINAL_VALUES_KEY) rows = false ->
     log_original_gsv_value st g value =
     (set_gsv_edits (set_schema_meta st (Some (set_meta_int metas "install_order_seq" (c + 1))))
        (Some (rows ++ [mkgsv g ORIGINAL_VALUES_KEY (Some value) (c + 1)])%list), Ok tt)).
Proof.
  destruct (next_sequence_some st c Hc) as [Hn _].
  assert (Hs' : (set_foreign_keys st false).(schema_meta) = Some metas) by exact Hs.
  split; [|split].
  - intros path rows Hf Hx. unfold log_original_data_file, run_unregistered.
    rewrite Hn, (run_meta_then _ _ _ _ Hs').
    rewrite (insert_file_fk (set_schema_meta (set_foreign_keys st false) (Some (set_meta_int metas "install_order_seq" (c + 1)))) rows (mkfile path ORIGINAL_VALUES_KEY (c + 1)) Hf Hx).
    destruct st; reflexivity.
  - intros edit value rows Hi Hx. unfold log_original_ini_value, run_unregistered.
    rewrite Hn, (run_meta_then _ _ _ _ Hs').
    rewrite (insert_ini_ok (set_schema_meta (set_foreign_keys st false) (Some (set_meta_int metas "install_order_seq" (c + 1)))) rows (mkini edit.(IniEdit.file) edit.(IniEdit.section) edit.(IniEdit.key) ORIGINAL_VALUES_KEY (Some value) (c + 1)) Hi Hx).
    destruct st; reflexivity.
  - intros g value rows Hg Hx. unfold log_original_gsv_value, run_unregistered.
    rewrite Hn, (run_meta_then _ _ _ _ Hs').
    rewrite (insert_gsv_ok (set_schema_meta (set_foreign_keys st false) (Some (set_meta_int metas "install_order_seq" (c + 1)))) rows (mkgsv g ORIGINAL_VALUES_KEY (Some value) (c + 1)) Hg Hx).
    destruct st; reflexivity.
Qed.

Lemma log_original_sentinel_claim_witness :
  (fst (Schema.apply (empty_store true))).(foreign_keys) = true /\
  mod_exists (fst (Schema.apply (empty_store true))) ORIGINAL_VALUES_KEY = false /\
  log_original_data_file (fst (Schema.apply (empty_store true))) "Data/test.dds" =
  (set_file_owners (set_schema_meta (fst (Schema.apply (empty_store true)))
       (Some (set_meta_int [mkmeta "schema_version" (SInt 1) SNull; mkmeta "install_order_seq" (SInt 0) SNull]
                "install_order_seq" (0 + 1))))
     (Some ([] ++ [mkfile "Data/test.dds" ORIGINAL_VALUES_KEY (0 + 1)])%list), Ok tt).
Proof.
  assert (Hs : (fst (Schema.apply (empty_store true))).(schema_meta) =
               Some [mkmeta "schema_version" (SInt 1) SNull; mkmeta "install_order_seq" (SInt 0) SNull])
    by (vm_compute; reflexivity).
  assert (Hc : Schema.stored_meta (fst (Schema.apply (empty_store true))) "install_order_seq"
               = Some (SInt 0)) by (vm_compute; reflexivity).
  split; [vm_compute; reflexivity|]. split; [vm_compute; reflexivity|].
  destruct (log_original_sentinel_claim _ _ 0 Hs Hc) as [Hd _].
  apply (Hd "Data/test.dds" []); [vm_compute; reflexivity | reflexivity].
Defined.

(** C6 (counterexample): on a migrated store without foreign-key
    enforcement ([schema::apply] does not turn it on), registering [m1],
    recording its claim on a file and deleting [m1] all succeed, and the
    claim is left behind, owned by a mod that no longer exists. *)
Lemma fk_owners_counterexample :
  owners_registered (fst (Schema.apply (empty_store false))) /\
  exec_all (fst (Schema.apply (empty_store false)))
    [InsertMod (mkmod "m1" "m1.7z" "Mod One" "1.0" None None); InsertFile (mkfile "Data/a.dds" "m1" 1); DeleteMod "m1"] =
  (fst (exec_all (fst (Schema.apply (empty_store false)))
    [InsertMod (mkmod "m1" "m1.7z" "Mod One" "1.0" None None); InsertFile (mkfile "Data/a.dds" "m1" 1); DeleteMod "m1"]), None) /\
  ~ owners_registered (fst (exec_all (fst (Schema.apply (empty_store false)))
    [InsertMod (mkmod "m1" "m1.7z" "Mod One" "1.0" None None); InsertFile (mkfile "Data/a.dds" "m1" 1); DeleteMod "m1"])).
Proof.
  split; [apply owners_registered_empty; vm_compute; reflexivity|].
  split; [vm_compute; reflexivity|].
  intros [Hf _].
  assert (E : (fst (exec_all (fst (Schema.apply (empty_store false)))
    [InsertMod (mkmod "m1" "m1.7z" "Mod One" "1.0" None None); InsertFile (mkfile "Data/a.dds" "m1" 1); DeleteMod "m1"])).(file_owners)
    = Some [mkfile "Data/a.dds" "m1" 1]) by (vm_compute; reflexivity).
  specialize (Hf _ _ E (or_introl eq_refl)). vm_compute in Hf. discriminate.
Qed.

(** C6 (amended): on a connection enforcing foreign keys, every sequence
    of row statements keeps every ownership record (file, ini, gsv) owned by
    a registered mod, and deleting a mod removes, in that same statement,
    every ownership record of its key from the three tables. *)
Theorem fk_owners_invariant (st : Store) (ds : list Dml) (k : string)
  (Hfk : st.(foreign_keys) = true) (Hinv : owners_registered st) :
  owners_registered (fst (exec_all st ds)) /\
  (st.(mods) <> None ->
   no_records_of (fst (exec_dml st (DeleteMod k))) k /\
   mod_exists (fst (exec_dml st (DeleteMod k))) k = false).
Proof.
  split.
  - exact (exec_all_owners_registered st ds Hfk Hinv).
  - intros Hm. exact (delete_mod_cascade st k Hfk Hm).
Qed.

Lemma fk_owners_invariant_witness :
  owners_registered
    (fst (exec_all (fst (Schema.apply (empty_store true)))
       [InsertMod (mkmod "m1" "m1.7z" "Mod One" "1.0" None None);
        InsertFile (mkfile "Data/a.dds" "m1" 1); DeleteMod "m1"])).
Proof.
  assert (Hfk : (fst (Schema.apply (empty_store true))).(foreign_keys) = true)
    by (vm_compute; reflexivity).
  assert (Hinv : owners_registered (fst (Schema.apply (empty_store true))))
    by (apply owners_registered_empty; vm_compute; reflexivity).
  exact (proj1 (fk_owners_invariant _
    [InsertMod (mkmod "m1" "m1.7z" "Mod One" "1.0" None None);
     InsertFile (mkfile "Data/a.dds" "m1" 1); DeleteMod "m1"] "m1" Hfk Hinv)).
Defined.

End LedgerClaims.


(* ------------------------------------------------------------------ *)
(** ** Further properties of the code *)

Module VersionExtra.
Import Version VersionFacts.

Lemma str_app_assoc (a b c : string) : (a ++ b) ++ c = a ++ (b ++ c).
Proof. induction a as [|x a IH]; simpl; [reflexivity | now rewrite IH]. Qed.

Lemma str_app_nil_r (a : string) : a ++ EmptyString = a.
Proof. induction a as [|x a IH]; simpl; [reflexivity | now rewrite IH]. Qed.

Fixpoint all_digits (s : string) : bool :=
  match s with
  | EmptyString => true
  | String c s' => is_ascii_digit c && all_digits s'
  end.

(** The value of the digits [s] read after the value [v]. *)
Fixpoint dec_val (v : N) (s : string) : N :=
  match s with
  | EmptyString => v
  | String c s' => dec_val (v * 10 + digit_value c) s'
  end.

(** [rest] does not continue a numeric identifier. *)
Definition ends_number (rest : string) : bool :=
  match rest with String c _ => negb (is_ascii_digit c) | EmptyString => true end.

Lemma all_digits_app (a b : string) : all_digits (a ++ b) = all_digits a && all_digits b.
Proof. induction a as [|x a IH]; simpl; [reflexivity | rewrite IH; apply andb_assoc]. Qed.

Lemma dec_val_ge (s : string) (v : N) : (v <= dec_val v s)%N.
Proof.
  revert v; induction s as [|c s IH]; intros v; simpl; [lia|].
  specialize (IH (v * 10 + digit_value c)%N). lia.
Qed.

Lemma dec_val_snoc (s : string) (v : N) (c : ascii) :
  dec_val v (s ++ String c EmptyString) = (dec_val v s * 10 + digit_value c)%N.
Proof. revert v; induction s as [|x s IH]; intros v; simpl; [reflexivity | apply IH]. Qed.

Lemma digit_value_le (c : ascii) : is_ascii_digit c = true -> (digit_value c <= 9)%N.
Proof. unfold is_ascii_digit, digit_value. intros H. apply andb_prop in H as [H1 H2].
  apply N.leb_le in H1, H2. lia. Qed.

Lemma digit_char (k : N) : (k < 10)%N ->
  is_ascii_digit (ascii_of_N (48 + k)) = true /\ digit_value (ascii_of_N (48 + k)) = k.
Proof.
  intros Hk. unfold is_ascii_digit, digit_value.
  rewrite N_ascii_embedding by lia. split.
  - apply andb_true_intro; split; apply N.leb_le; lia.
  - lia.
Qed.

Lemma numeric_aux_pos (s rest : string) (len : nat) (v : N) :
  (0 < v)%N -> all_digits s = true -> ends_number rest = true ->
  (dec_val v s <= u64_max)%N ->
  numeric_aux (s ++ rest) len v = Some (dec_val v s, rest, (len + String.length s)%nat).
Proof.
  revert len v; induction s as [|c s IH]; intros len v Hv Hd Hr Hmax; simpl in *.
  - rewrite Nat.add_0_r. destruct rest as [|c r]; simpl in *; [reflexivity|].
    apply negb_true_iff in Hr. now rewrite Hr.
  - apply andb_prop in Hd as [Hc Hd]. rewrite Hc.
    replace ((v =? 0)%N) with false by (symmetry; apply N.eqb_neq; lia). simpl.
    pose proof (dec_val_ge s (v * 10 + digit_value c)%N) as Hge.
    replace ((v * 10 + digit_value c <=? u64_max)%N) with true by (symmetry; apply N.leb_le; lia).
    rewrite IH by (auto; lia). f_equal. f_equal. lia.
Qed.

(** The shape of the digits [dec_aux] writes. *)
Lemma dec_aux_spec (f : nat) (n : N) (acc : string) :
  (n < 10 ^ N.of_nat f)%N -> (0 < f)%nat ->
  exists c s, dec_aux f n acc = String c (s ++ acc) /\ is_ascii_digit c = true /\
    all_digits s = true /\ dec_val (digit_value c) s = n /\
    (digit_value c = 0%N -> s = EmptyString).
Proof.
  revert n acc; induction f as [|f IH]; intros n acc Hn Hf; [lia|].
  cbn [dec_aux].
  assert (Hm : (n mod 10 < 10)%N) by (apply N.mod_lt; lia).
  destruct (digit_char (n mod 10) Hm) as [Hd1 Hd2].
  destruct (n <? 10)%N eqn:E.
  - apply N.ltb_lt in E. exists (ascii_of_N (48 + n mod 10)), EmptyString.
    rewrite Hd2, N.mod_small by lia. repeat split; auto.
    rewrite N.mod_small in Hd1 by lia. exact Hd1.
  - apply N.ltb_ge in E.
    rewrite Nat2N.inj_succ, N.pow_succ_r' in Hn.
    destruct f as [|f'].
    { simpl in Hn. lia. }
    assert (Hq : (n / 10 < 10 ^ N.of_nat (S f'))%N).
    { apply N.Div0.div_lt_upper_bound; lia. }
    destruct (IH (n / 10)%N (String (ascii_of_N (48 + n mod 10)) acc) Hq ltac:(lia))
      as (c & s & Heq & Hc & Hs & Hv & Hz).
    exists c, (s ++ String (ascii_of_N (48 + n mod 10)) EmptyString).
    rewrite Heq, str_app_assoc. repeat split; auto.
    + rewrite all_digits_app, Hs. cbn [all_digits]. now rewrite Hd1.
    + rewrite dec_val_snoc, Hv, Hd2. pose proof (N.div_mod n 10). lia.
    + intros H0. specialize (Hz H0). subst s. simpl in Hv.
      assert (1 <= n / 10)%N by (apply N.div_le_lower_bound; lia). lia.
Qed.

Lemma to_dec_spec (n : N) :
  exists c s, to_dec n = String c s /\ is_ascii_digit c = true /\
    all_digits s = true /\ dec_val (digit_value c) s = n /\
    (digit_value c = 0%N -> s = EmptyString).
Proof.
  unfold to_dec.
  destruct (dec_aux_spec (S (N.to_nat (N.log2 n))) n EmptyString) as (c & s & H & Hr);
    [| lia |].
  - rewrite Nat2N.inj_succ, N2Nat.id.
    destruct (N.eq_dec n 0) as [->|Hn]; [simpl; lia|].
    destruct (N.log2_spec n ltac:(lia)) as [_ H].
    eapply N.lt_le_trans; [exact H|]. apply N.pow_le_mono_l. lia.
  - exists c, s. rewrite H, str_app_nil_r. auto.
Qed.

Lemma numeric_identifier_to_dec (n : N) (rest : string) :
  (n <= u64_max)%N -> ends_number rest = true ->
  numeric_identifier (to_dec n ++ rest) = Some (n, rest).
Proof.
  intros Hmax Hr. destruct (to_dec_spec n) as (c & s & -> & Hc & Hs & Hv & Hz).
  unfold numeric_identifier. simpl. rewrite Hc. simpl.
  pose proof (digit_value_le c Hc) as H9.
  replace ((digit_value c <=? u64_max)%N) with true
    by (symmetry; apply N.leb_le; unfold u64_max; lia).
  destruct (N.eq_dec (digit_value c) 0) as [H0|H0].
  - specialize (Hz H0). subst s. simpl in Hv |- *. rewrite H0.
    destruct rest as [|r rs]; simpl in *; [congruence|].
    apply negb_true_iff in Hr. rewrite Hr. simpl. congruence.
  - rewrite numeric_aux_pos by (auto; lia). simpl. congruence.
Qed.

Lemma ends_number_dot (t : string) : ends_number (String "." t) = true.
Proof. reflexivity. Qed.

Lemma semver_parse_to_dec (a b c : N) :
  (a <= u64_max)%N -> (b <= u64_max)%N -> (c <= u64_max)%N ->
  semver_parse (to_dec a ++ "." ++ to_dec b ++ "." ++ to_dec c) = Some (mkv a b c).
Proof.
  intros Ha Hb Hc. unfold semver_parse.
  destruct (to_dec_spec a) as (ca & sa & Ea & _).
  remember (to_dec a ++ "." ++ to_dec b ++ "." ++ to_dec c) as x eqn:Ex.
  destruct x as [|x0 x1]; [rewrite Ea in Ex; discriminate|].
  cbv beta iota. rewrite Ex, <- (str_app_nil_r (to_dec c)).
  cbn [append].
  rewrite numeric_identifier_to_dec by auto. cbv beta iota. simpl is_dot.
  cbn [append].
  rewrite numeric_identifier_to_dec by auto. cbv beta iota. simpl is_dot.
  rewrite numeric_identifier_to_dec by auto. reflexivity.
Qed.

Lemma numeric_not_dot (c : ascii) : is_ascii_digit c = true -> is_dot c = false.
Proof.
  intros H. unfold is_dot. destruct (Ascii.eqb_spec c dot) as [->|]; [discriminate|reflexivity].
Qed.

(** Every byte is below 128: the string is its own ASCII text. *)
Fixpoint all_ascii (s : string) : bool :=
  match s with
  | EmptyString => true
  | String c s' => (N_of_ascii c <? 128)%N && all_ascii s'
  end.

Lemma all_digits_ascii (s : string) : all_digits s = true -> all_ascii s = true.
Proof.
  induction s as [|c s IH]; simpl; [reflexivity|].
  intros H. apply andb_prop in H as [Hc Hs]. rewrite IH by exact Hs.
  unfold is_ascii_digit in Hc. apply andb_prop in Hc as [_ Hc].
  apply N.leb_le in Hc. rewrite andb_true_r. apply N.ltb_lt. lia.
Qed.

Lemma clean_app (a b : string) :
  all_ascii a = true -> clean (a ++ b) = clean a ++ clean b.
Proof.
  unfold clean. induction a as [|c a IH]; intros H; simpl; [reflexivity|].
  simpl in H. apply andb_prop in H as [Hc Ha]. rewrite Hc.
  destruct (char_is_numeric (N_of_ascii c) || is_dot c); simpl; now rewrite IH.
Qed.

Lemma clean_digits (s : string) : all_digits s = true -> clean s = s.
Proof.
  unfold clean. induction s as [|c s IH]; simpl; [reflexivity|].
  intros H. apply andb_prop in H as [Hc Hs].
  assert (Ha : all_ascii (String c EmptyString) = true)
    by (apply all_digits_ascii; simpl; now rewrite Hc).
  simpl in Ha. rewrite andb_true_r in Ha. rewrite Ha.
  unfold char_is_numeric. change ((48 <=? N_of_ascii c)%N && (N_of_ascii c <=? 57)%N)
    with (is_ascii_digit c). rewrite Hc. simpl. now rewrite IH.
Qed.

Lemma split_dot_digits (s : string) : all_digits s = true -> split_dot s = [s].
Proof.
  induction s as [|c s IH]; simpl; [reflexivity|].
  intros H. apply andb_prop in H as [Hc Hs]. rewrite numeric_not_dot by exact Hc.
  now rewrite IH.
Qed.

Lemma split_dot_digits_dot (s t : string) :
  all_digits s = true -> split_dot (s ++ String "." t) = s :: split_dot t.
Proof.
  induction s as [|c s IH]; simpl; [reflexivity|].
  intros H. apply andb_prop in H as [Hc Hs]. rewrite numeric_not_dot by exact Hc.
  now rewrite IH.
Qed.

Lemma to_dec_digits (n : N) :
  exists c s, to_dec n = String c s /\ all_digits (to_dec n) = true.
Proof.
  destruct (to_dec_spec n) as (c & s & E & Hc & Hs & _).
  exists c, s. rewrite E. split; [reflexivity|]. simpl. now rewrite Hc, Hs.
Qed.

Lemma clean_to_dec (n : N) : clean (to_dec n) = to_dec n.
Proof. destruct (to_dec_digits n) as (? & ? & _ & H). now apply clean_digits. Qed.

Lemma ascii_to_dec (n : N) : all_ascii (to_dec n) = true.
Proof. destruct (to_dec_digits n) as (? & ? & _ & H). now apply all_digits_ascii. Qed.

Lemma starts_with_dot_to_dec (n : N) (t : string) : starts_with_dot (to_dec n ++ t) = false.
Proof.
  destruct (to_dec_spec n) as (c & s & E & Hc & _). rewrite E. simpl.
  now apply numeric_not_dot.
Qed.

Lemma segments_to_dec (n : N) : segments (to_dec n) = [to_dec n].
Proof.
  destruct (to_dec_digits n) as (c & s & E & H). unfold segments.
  rewrite split_dot_digits by exact H. rewrite E. reflexivity.
Qed.

Lemma segments_to_dec_dot (n : N) (t : string) :
  segments (to_dec n ++ String "." t) = to_dec n :: segments t.
Proof.
  destruct (to_dec_digits n) as (c & s & E & H). unfold segments.
  rewrite split_dot_digits_dot by exact H. rewrite E. reflexivity.
Qed.

Lemma parse_version_display (v : Version) :
  (v.(major) <= u64_max)%N -> (v.(minor) <= u64_max)%N -> (v.(patch) <= u64_max)%N ->
  parse_version (to_string v) = Some v.
Proof.
  intros Ha Hb Hc. rewrite parse_version_segments. unfold to_string.
  rewrite !clean_app by (exact (ascii_to_dec _) || reflexivity).
  rewrite !clean_to_dec. change (clean ".") with ".".
  rewrite starts_with_dot_to_dec. cbn [append].
  rewrite !segments_to_dec_dot, segments_to_dec.
  cbn [normalize join_dot].
  rewrite semver_parse_to_dec by assumption. destruct v; reflexivity.
Qed.

(** ** Properties of [parse_version] *)

(** The [Display] form of every version whose components fit in a [u64]
    parses back to that version. *)
Theorem parse_version_to_string (v : Version) :
  (v.(major) <= u64_max)%N -> (v.(minor) <= u64_max)%N -> (v.(patch) <= u64_max)%N ->
  parse_version (to_string v) = Some v.
Proof. apply parse_version_display. Qed.

Lemma parse_version_to_string_witness :
  parse_version (to_string (mkv 1 20 u64_max)) = Some (mkv 1 20 u64_max).
Proof. apply parse_version_to_string; simpl; unfold u64_max; lia. Defined.

(** A version written with one or two components is read with the missing
    components as [0]. *)
Theorem parse_version_short_forms (a b : N) :
  (a <= u64_max)%N -> (b <= u64_max)%N ->
  parse_version (to_dec a) = Some (mkv a 0 0) /\
  parse_version (to_dec a ++ "." ++ to_dec b) = Some (mkv a b 0).
Proof.
  intros Ha Hb. assert (H0 : (0 <= u64_max)%N) by (unfold u64_max; lia).
  split; rewrite parse_version_segments.
  - rewrite clean_to_dec, segments_to_dec.
    replace (starts_with_dot (to_dec a)) with false
      by (rewrite <- (str_app_nil_r (to_dec a)); symmetry; apply starts_with_dot_to_dec).
    cbn [normalize].
    change ".0.0" with ("." ++ to_dec 0 ++ "." ++ to_dec 0).
    now apply semver_parse_to_dec.
  - rewrite !clean_app by (exact (ascii_to_dec _) || reflexivity).
  rewrite !clean_to_dec. change (clean ".") with ".".
    rewrite starts_with_dot_to_dec. cbn [append].
    rewrite segments_to_dec_dot, segments_to_dec.
    cbn [normalize].
    change ".0" with ("." ++ to_dec 0).
    now apply semver_parse_to_dec.
Qed.

Lemma parse_version_short_forms_witness :
  parse_version (to_dec 7) = Some (mkv 7 0 0) /\
  parse_version (to_dec 7 ++ "." ++ to_dec 12) = Some (mkv 7 12 0).
Proof. apply parse_version_short_forms; unfold u64_max; lia. Defined.

End VersionExtra.

Module ModInfoExtra.
Import Version ModInfo.

Lemma version_cmp_refl (v : Version) : Version.cmp v v = Eq.
Proof. unfold Version.cmp. now rewrite !N.compare_refl. Qed.

Lemma update_option_same {A} (o : bool) (x : option A) : update_option o x x = x.
Proof. unfold update_option. now destruct (o || is_none x). Qed.

Lemma update_string_same (o : bool) (x : string) : update_string o x x = x.
Proof. unfold update_string. now destruct (o || is_empty x). Qed.

Lemma update_bool_same (o x : bool) : update_bool o x x = x.
Proof. unfold update_bool. now destruct o. Qed.

Lemma update_option_none {A} (x : option A) : update_option false x None = x.
Proof. unfold update_option. destruct x; reflexivity. Qed.

Lemma update_string_empty (x : string) : update_string false x "" = x.
Proof. unfold update_string. destruct x; reflexivity. Qed.

Lemma update_option_twice {A} (o : bool) (x y : option A) :
  update_option o (update_option o x y) y = update_option o x y.
Proof. unfold update_option. destruct o, x, y; reflexivity. Qed.

Lemma update_string_twice (o : bool) (x y : string) :
  update_string o (update_string o x y) y = update_string o x y.
Proof. unfold update_string. destruct o, x, y; reflexivity. Qed.

Lemma update_bool_twice (o x y : bool) : update_bool o (update_bool o x y) y = update_bool o x y.
Proof. unfold update_bool. destruct o; reflexivity. Qed.

(** A mod whose last known version reads as the same version as its own
    version string has no update, however the two strings are written. *)
Theorem has_update_same_version (m : ModInfo) (latest : string) :
  m.(last_known_version) = Some latest ->
  parse_version latest = parse_version m.(version) ->
  has_update (parse_machine_version m) = false.
Proof.
  intros Hl Hp. unfold has_update, parse_machine_version. cbn.
  rewrite Hl, Hp. destruct (parse_version (version m)) as [v|]; [|reflexivity].
  now rewrite version_cmp_refl.
Qed.


(** For versions written in their [Display] form, a mod has an update
    exactly when the last known version is greater in the [major], [minor],
    [patch] order. *)
Theorem has_update_display_forms (m : ModInfo) (cur latest : Version) :
  (cur.(major) <= u64_max)%N -> (cur.(minor) <= u64_max)%N -> (cur.(patch) <= u64_max)%N ->
  (latest.(major) <= u64_max)%N -> (latest.(minor) <= u64_max)%N -> (latest.(patch) <= u64_max)%N ->
  m.(version) = to_string cur -> m.(last_known_version) = Some (to_string latest) ->
  has_update (parse_machine_version m) = true <-> Version.cmp latest cur = Gt.
Proof.
  intros H1 H2 H3 H4 H5 H6 Hv Hl. unfold has_update, parse_machine_version. cbn.
  rewrite Hl, Hv, !VersionExtra.parse_version_display by assumption.
  destruct (Version.cmp latest cur); split; congruence.
Qed.

Lemma has_update_display_forms_witness :
  has_update (parse_machine_version
    {| id := None; download_id := None; name := "Mod"; file_name := "mod.7z";
       version := to_string (mkv 1 2 3); machine_version := None; author := None;
       description := None; category_id := None; custom_category_id := None;
       website := None; download_date := None; install_date := None; is_endorsed := None;
       load_order := None; last_known_version := Some (to_string (mkv 1 10 0));
       screenshot := None; update_warning_enabled := true; update_checks_enabled := true;
       new_load_order := None |}) = true <-> Version.cmp (mkv 1 10 0) (mkv 1 2 3) = Gt.
Proof. apply has_update_display_forms; try reflexivity; simpl; unfold u64_max; lia. Defined.

Lemma has_update_same_version_witness :
  has_update (parse_machine_version
    {| id := None; download_id := None; name := "Mod"; file_name := "mod.7z";
       version := "1.5"; machine_version := None; author := None;
       description := None; category_id := None; custom_category_id := None;
       website := None; download_date := None; install_date := None; is_endorsed := None;
       load_order := None; last_known_version := Some "v1.5.0";
       screenshot := None; update_warning_enabled := true; update_checks_enabled := true;
       new_load_order := None |}) = false.
Proof. apply (has_update_same_version _ "v1.5.0"); reflexivity. Defined.

(** With [overwrite_all] set, [update_from] copies every field of [other]. *)
Theorem update_from_overwrite_copies (self other : ModInfo) :
  update_from self other true = other.
Proof. destruct self, other. reflexivity. Qed.

(** Merging without overwriting from [ModInfo::default()], or merging a
    [ModInfo] into itself, changes nothing. *)
Theorem update_from_neutral (self : ModInfo) (overwrite_all : bool) :
  update_from self default false = self /\ update_from self self overwrite_all = self.
Proof.
  destruct self. unfold update_from, default. cbn.
  rewrite !update_option_none, !update_string_empty, !update_option_same,
    !update_string_same, !update_bool_same.
  split; reflexivity.
Qed.

(** Merging the same [other] twice gives the same result as merging it
    once. *)
Theorem update_from_idempotent (self other : ModInfo) (overwrite_all : bool) :
  update_from (update_from self other overwrite_all) other overwrite_all =
  update_from self other overwrite_all.
Proof.
  destruct self, other. unfold update_from. cbn.
  now rewrite !update_option_twice, !update_string_twice, !update_bool_twice.
Qed.

End ModInfoExtra.

Module SchemaExtra.
Import Store Schema SchemaFacts.

(** [st'] holds every row of [st]: the four data tables unchanged, the
    meta rows and the indices extended at the end, the connection's
    foreign-key setting kept. *)
Definition keeps_data (st st' : Store) : Prop :=
  (forall ms, st.(mods) = Some ms -> st'.(mods) = Some ms) /\
  (forall rows, st.(file_owners) = Some rows -> st'.(file_owners) = Some rows) /\
  (forall rows, st.(ini_edits) = Some rows -> st'.(ini_edits) = Some rows) /\
  (forall rows, st.(gsv_edits) = Some rows -> st'.(gsv_edits) = Some rows) /\
  (forall rows, st.(schema_meta) = Some rows ->
     exists extra, st'.(schema_meta) = Some (rows ++ extra)%list) /\
  (exists more, st'.(indices) = (st.(indices) ++ more)%list) /\
  st'.(foreign_keys) = st.(foreign_keys).

Lemma keeps_data_refl (st : Store) : keeps_data st st.
Proof.
  repeat split; auto.
  - intros rows H. exists []. now rewrite app_nil_r.
  - exists []. now rewrite app_nil_r.
Qed.

Lemma keeps_data_trans (a b c : Store) : keeps_data a b -> keeps_data b c -> keeps_data a c.
Proof.
  intros (H1 & H2 & H3 & H4 & H5 & (m1 & H6) & H7) (G1 & G2 & G3 & G4 & G5 & (m2 & G6) & G7).
  repeat split; auto.
  - intros rows H. destruct (H5 rows H) as (e1 & E1). destruct (G5 _ E1) as (e2 & E2).
    exists (e1 ++ e2)%list. now rewrite E2, app_assoc.
  - exists (m1 ++ m2)%list. now rewrite G6, H6, app_assoc.
  - congruence.
Qed.

Lemma keeps_data_create_if (st : Store) (t : Table) : keeps_data st (create_if st t).
Proof.
  unfold create_if. destruct (table_exists st t) eqn:E; [apply keeps_data_refl|].
  destruct st as [sm ms fo ie ge ix fk].
  destruct t; simpl in E; repeat split; simpl; auto;
    try (intros ? H; subst; discriminate);
    try (intros rows H; exists []; now rewrite app_nil_r);
    try (exists []; now rewrite app_nil_r).
Qed.

Lemma keeps_data_add_index (st : Store) (n : string) : keeps_data st (add_index st n).
Proof.
  unfold add_index. destruct (existsb (String.eqb n) st.(indices)); [apply keeps_data_refl|].
  destruct st; repeat split; simpl; auto.
  - intros rows H. exists []. now rewrite app_nil_r.
  - exists [n]. reflexivity.
Qed.

Lemma keeps_data_seed_if (st : Store) (k : string) (v : Z) : keeps_data st (seed_if st k v).
Proof.
  unfold seed_if. destruct (schema_meta st) as [rows|] eqn:E; [|apply keeps_data_refl].
  destruct (meta_lookup rows k); [apply keeps_data_refl|].
  destruct st; simpl in E; subst; repeat split; simpl; auto.
  - intros rows' H. injection H as <-. eexists. reflexivity.
  - exists []. now rewrite app_nil_r.
Qed.

Lemma keeps_data_migrated (st : Store) : keeps_data st (migrated st).
Proof.
  unfold migrated, seed_store, ddl_store.
  repeat (eapply keeps_data_trans; [|first [apply keeps_data_seed_if | apply keeps_data_add_index]]).
  repeat (eapply keeps_data_trans; [|apply keeps_data_create_if]).
  apply keeps_data_refl.
Qed.

Lemma keeps_data_apply (st : Store) : keeps_data st (fst (apply st)).
Proof.
  rewrite apply_spec.
  destruct (version_of st >? CURRENT_VERSION)%Z; [apply keeps_data_refl|].
  destruct (version_of st =? CURRENT_VERSION)%Z; [apply keeps_data_refl|].
  apply keeps_data_migrated.
Qed.

(** [apply] never deletes or changes data: the rows of the four data tables
    are kept as they were, [schema_meta] rows and indices are only added
    after the existing ones, and the foreign-key setting is left alone. *)
Theorem apply_keeps_data (st : Store) :
  let st' := fst (apply st) in
  (forall ms, st.(mods) = Some ms -> st'.(mods) = Some ms) /\
  (forall rows, st.(file_owners) = Some rows -> st'.(file_owners) = Some rows) /\
  (forall rows, st.(ini_edits) = Some rows -> st'.(ini_edits) = Some rows) /\
  (forall rows, st.(gsv_edits) = Some rows -> st'.(gsv_edits) = Some rows) /\
  (forall rows, st.(schema_meta) = Some rows ->
     exists extra, st'.(schema_meta) = Some (rows ++ extra)%list) /\
  (exists more, st'.(indices) = (st.(indices) ++ more)%list) /\
  st'.(foreign_keys) = st.(foreign_keys).
Proof. apply keeps_data_apply. Qed.

(** On a store whose recorded version is below [CURRENT_VERSION] (a new
    database reads 0), [apply] succeeds and leaves every table of [DDL_V1]
    and every index it names in place. *)
Theorem apply_creates_schema (st : Store) (v : Z) :
  read_version st = Ok v -> (v < CURRENT_VERSION)%Z ->
  snd (apply st) = Ok tt /\
  (forall t, In (CreateTableIfNotExists t) DDL_V1 -> table_exists (fst (apply st)) t = true) /\
  (forall n t, In (CreateIndexIfNotExists n t) DDL_V1 -> In n (fst (apply st)).(indices)).
Proof.
  intros Hr Hv. rewrite read_version_spec in Hr. injection Hr as Hr. subst v.
  rewrite apply_spec. unfold CURRENT_VERSION in *.
  replace (version_of st >? 1)%Z with false by lia.
  replace (version_of st =? 1)%Z with false by lia.
  split; [reflexivity|]. split.
  - intros t _. apply migrated_tables.
  - intros n t Hin. cbn [fst].
    assert (Hn : In n index_names).
    { unfold DDL_V1 in Hin. simpl in Hin.
      repeat (destruct Hin as [Hin|Hin]; [try discriminate; injection Hin as <- _; simpl; tauto|]).
      contradiction. }
    apply migrated_indices with (st := st), existsb_exists in Hn as (x & Hx & E).
    apply String.eqb_eq in E. now subst x.
Qed.

Lemma apply_creates_schema_witness :
  snd (apply (empty_store true)) = Ok tt /\
  (forall t, In (CreateTableIfNotExists t) DDL_V1 ->
     table_exists (fst (apply (empty_store true))) t = true) /\
  (forall n t, In (CreateIndexIfNotExists n t) DDL_V1 ->
     In n (fst (apply (empty_store true))).(indices)).
Proof. apply (apply_creates_schema (empty_store true) 0); reflexivity. Defined.

End SchemaExtra.

Module DmlExtra.
Import RStr Store Schema Dml SchemaFacts RStrFacts.

Lemma eq_ignore_ascii_case_sym (a b : string) :
  eq_ignore_ascii_case a b = eq_ignore_ascii_case b a.
Proof.
  destruct (eq_ignore_ascii_case a b) eqn:E1, (eq_ignore_ascii_case b a) eqn:E2; auto.
  - apply eq_ignore_ascii_case_spec in E1. symmetry in E1.
    apply eq_ignore_ascii_case_spec in E1. congruence.
  - apply eq_ignore_ascii_case_spec in E2. symmetry in E2.
    apply eq_ignore_ascii_case_spec in E2. congruence.
Qed.

Lemma fop_snoc {A} (R : A -> A -> Prop) (l : list A) (r : A) :
  ForallOrdPairs R l -> (forall x, In x l -> R x r) -> ForallOrdPairs R (l ++ [r])%list.
Proof.
  induction 1 as [|a l Ha Hl IH]; intros Hr; simpl.
  - constructor; constructor.
  - constructor.
    + apply Forall_app. split; [exact Ha|]. constructor; [apply Hr; now left | constructor].
    + apply IH. intros x Hx. apply Hr. now right.
Qed.

Lemma fop_filter {A} (R : A -> A -> Prop) (f : A -> bool) (l : list A) :
  ForallOrdPairs R l -> ForallOrdPairs R (filter f l).
Proof.
  induction 1 as [|a l Ha Hl IH]; simpl; [constructor|].
  destruct (f a); [|exact IH]. constructor; [|exact IH].
  rewrite Forall_forall in Ha |- *. intros x Hx. apply filter_In in Hx as [Hx _]. auto.
Qed.

Lemma fop_map {A} (R : A -> A -> Prop) (g : A -> A) (l : list A) :
  (forall a b, R a b -> R (g a) (g b)) -> ForallOrdPairs R l -> ForallOrdPairs R (map g l).
Proof.
  intros Hg. induction 1 as [|a l Ha Hl IH]; simpl; constructor; auto.
  apply Forall_map. eapply Forall_impl; [|exact Ha]. auto.
Qed.

Lemma existsb_false_forall {A} (f : A -> bool) (l : list A) :
  existsb f l = false -> forall x, In x l -> f x = false.
Proof.
  intros H x Hx. destruct (f x) eqn:E; [|reflexivity].
  assert (existsb f l = true) by (apply existsb_exists; eauto). congruence.
Qed.

Lemma keys_unique_step (st st' : Store) :
  (st.(schema_meta) = st'.(schema_meta) \/ forall rows, st'.(schema_meta) = Some rows ->
     ForallOrdPairs (fun a b => String.eqb a.(meta_key) b.(meta_key) = false) rows) ->
  (st.(mods) = st'.(mods) \/ forall ms, st'.(mods) = Some ms ->
     ForallOrdPairs (fun a b => String.eqb a.(mod_key) b.(mod_key) = false) ms) ->
  (st.(file_owners) = st'.(file_owners) \/ forall rows, st'.(file_owners) = Some rows ->
     ForallOrdPairs (fun a b => file_match a.(file_path) a.(fo_mod_key) b = false) rows) ->
  (st.(ini_edits) = st'.(ini_edits) \/ forall rows, st'.(ini_edits) = Some rows ->
     ForallOrdPairs (fun a b =>
       ini_match a.(ini_file) a.(ini_section) a.(ini_key) a.(ie_mod_key) b = false) rows) ->
  (st.(gsv_edits) = st'.(gsv_edits) \/ forall rows, st'.(gsv_edits) = Some rows ->
     ForallOrdPairs (fun a b => gsv_match a.(gsv_key) a.(ge_mod_key) b = false) rows) ->
  keys_unique st -> keys_unique st'.
Proof.
  intros H1 H2 H3 H4 H5 (K1 & K2 & K3 & K4 & K5).
  repeat split;
    [destruct H1 as [<-|H1] | destruct H2 as [<-|H2] | destruct H3 as [<-|H3]
    | destruct H4 as [<-|H4] | destruct H5 as [<-|H5]]; auto.
Qed.

Lemma exec_dml_keys_unique (st : Store) (d : Dml) :
  keys_unique st -> keys_unique (fst (exec_dml st d)).
Proof.
  intros K. pose proof K as (K1 & K2 & K3 & K4 & K5).
  destruct d as [r|r|k|r|path k|r|f s key k|r|g k|k v]; cbn [exec_dml].
  - destruct (mods st) as [ms|] eqn:E; [|exact K].
    destruct (existsb _ ms) eqn:Ex; [exact K|].
    apply (keys_unique_step st); auto; right; intros ms' H; simpl in H; injection H as <-.
    apply fop_snoc; [now apply K2|]. intros x Hx.
    pose proof (existsb_false_forall _ _ Ex x Hx) as Hf. simpl in Hf.
    exact Hf.
  - destruct (mods st) as [ms|] eqn:E; [|exact K].
    apply (keys_unique_step st); auto; right; intros ms' H; simpl in H; injection H as <-.
    apply fop_map; [|now apply K2]. intros a b Hab.
    destruct (String.eqb_spec (mod_key a) (mod_key r)) as [Ea|Ea],
             (String.eqb_spec (mod_key b) (mod_key r)) as [Eb|Eb]; simpl;
      congruence.
  - destruct (mods st) as [ms|] eqn:E; [|exact K].
    assert (Km : keys_unique (set_mods st (Some (filter (fun m => negb (String.eqb (mod_key m) k)) ms)))).
    { apply (keys_unique_step st); auto; right; intros ms' H; simpl in H; injection H as <-.
      apply fop_filter. now apply K2. }
    destruct (foreign_keys st); [|exact Km]. cbn [fst]. unfold cascade.
    apply (keys_unique_step (set_mods st (Some (filter (fun m => negb (String.eqb (mod_key m) k)) ms))));
      auto; right; intros rows H; simpl in H;
      [destruct (file_owners st) eqn:F | destruct (ini_edits st) eqn:F | destruct (gsv_edits st) eqn:F];
      try discriminate; injection H as <-; apply fop_filter; auto.
  - destruct (file_owners st) as [rows|] eqn:E; [|exact K].
    destruct (existsb _ rows) eqn:Ex; [exact K|].
    destruct (fk_violation st (fo_mod_key r)); [exact K|].
    apply (keys_unique_step st); auto; right; intros rows' H; simpl in H; injection H as <-.
    apply fop_snoc; [now apply K3|]. intros x Hx.
    pose proof (existsb_false_forall _ _ Ex x Hx) as Hf. unfold file_match in *.
    now rewrite eq_ignore_ascii_case_sym, String.eqb_sym.
  - destruct (file_owners st) as [rows|] eqn:E; [|exact K].
    apply (keys_unique_step st); auto; right; intros rows' H; simpl in H; injection H as <-.
    apply fop_filter. now apply K3.
  - destruct (ini_edits st) as [rows|] eqn:E; [|exact K].
    destruct (existsb _ rows) eqn:Ex; [exact K|].
    destruct (fk_violation st (ie_mod_key r)); [exact K|].
    apply (keys_unique_step st); auto; right; intros rows' H; simpl in H; injection H as <-.
    apply fop_snoc; [now apply K4|]. intros x Hx.
    pose proof (existsb_false_forall _ _ Ex x Hx) as Hf. unfold ini_match in *.
    rewrite (eq_ignore_ascii_case_sym (ini_file r)), (eq_ignore_ascii_case_sym (ini_section r)),
      (eq_ignore_ascii_case_sym (ini_key r)), String.eqb_sym. exact Hf.
  - destruct (ini_edits st) as [rows|] eqn:E; [|exact K].
    apply (keys_unique_step st); auto; right; intros rows' H; simpl in H; injection H as <-.
    apply fop_filter. now apply K4.
  - destruct (gsv_edits st) as [rows|] eqn:E; [|exact K].
    destruct (existsb _ rows) eqn:Ex; [exact K|].
    destruct (fk_violation st (ge_mod_key r)); [exact K|].
    apply (keys_unique_step st); auto; right; intros rows' H; simpl in H; injection H as <-.
    apply fop_snoc; [now apply K5|]. intros x Hx.
    pose proof (existsb_false_forall _ _ Ex x Hx) as Hf. unfold gsv_match in *.
    now rewrite eq_ignore_ascii_case_sym, String.eqb_sym.
  - destruct (gsv_edits st) as [rows|] eqn:E; [|exact K].
    apply (keys_unique_step st); auto; right; intros rows' H; simpl in H; injection H as <-.
    apply fop_filter. now apply K5.
  - destruct (schema_meta st) as [rows|] eqn:E; [|exact K].
    apply (keys_unique_step st); auto; right; intros rows' H; simpl in H; injection H as <-.
    unfold set_meta_int. apply fop_map; [|now apply K1]. intros a b Hab.
    destruct (String.eqb_spec (meta_key a) k) as [Ea|Ea],
             (String.eqb_spec (meta_key b) k) as [Eb|Eb]; simpl;
      first [congruence | apply String.eqb_neq; congruence].
Qed.

Lemma exec_all_keys_unique (st : Store) (ds : list Dml) :
  keys_unique st -> keys_unique (fst (exec_all st ds)).
Proof.
  revert st; induction ds as [|d ds IH]; intros st K; [exact K|]. cbn [exec_all].
  pose proof (exec_dml_keys_unique st d K) as K'.
  destruct (exec_dml st d) as [st' [e|]]; [exact K' | apply IH, K'].
Qed.

Lemma keys_unique_create_if (st : Store) (t : Table) :
  keys_unique st -> keys_unique (create_if st t).
Proof.
  intros K. unfold create_if. destruct (table_exists st t); [exact K|].
  destruct t; apply (keys_unique_step st); auto; right; intros rows H;
    simpl in H; injection H as <-; constructor.
Qed.

Lemma keys_unique_add_index (st : Store) (n : string) :
  keys_unique st -> keys_unique (add_index st n).
Proof.
  intros K. unfold add_index. destruct (existsb _ _); [exact K|].
  apply (keys_unique_step st); auto.
Qed.

Lemma meta_lookup_none (rows : list MetaRow) (k : string) :
  meta_lookup rows k = None -> forall x, In x rows -> String.eqb (meta_key x) k = false.
Proof.
  induction rows as [|r rows IH]; simpl; [tauto|].
  destruct (String.eqb (meta_key r) k) eqn:E; [discriminate|].
  intros H x [<-|Hx]; auto.
Qed.

Lemma keys_unique_seed_if (st : Store) (k : string) (v : Z) :
  keys_unique st -> keys_unique (seed_if st k v).
Proof.
  intros K. unfold seed_if. destruct (schema_meta st) as [rows|] eqn:E; [|exact K].
  destruct (meta_lookup rows k) eqn:L; [exact K|].
  apply (keys_unique_step st); auto; right; intros rows' H; simpl in H; injection H as <-.
  apply fop_snoc; [now apply (proj1 K)|]. intros x Hx. simpl.
  now apply (meta_lookup_none rows k).
Qed.

Lemma keys_unique_apply (st : Store) : keys_unique st -> keys_unique (fst (apply st)).
Proof.
  intros K. rewrite apply_spec.
  destruct (version_of st >? CURRENT_VERSION)%Z; [exact K|].
  destruct (version_of st =? CURRENT_VERSION)%Z; [exact K|].
  unfold migrated, seed_store, ddl_store.
  repeat first [apply keys_unique_seed_if | apply keys_unique_add_index | apply keys_unique_create_if].
  exact K.
Qed.

(** The primary keys of [DDL_V1] are never violated: [apply] and every
    sequence of the ledger's statements, whether it stops at an error or
    not, turn a store whose keys are unique into one whose keys are
    unique. *)
Theorem primary_keys_kept (st : Store) (ds : list Dml) :
  keys_unique st ->
  keys_unique (fst (apply st)) /\ keys_unique (fst (exec_all st ds)).
Proof. intros K. split; [apply keys_unique_apply | apply exec_all_keys_unique]; exact K. Qed.

Lemma primary_keys_kept_witness :
  let st := fst (apply (empty_store true)) in
  let ds := [InsertMod (mkmod "m1" "a.7z" "A" "1.0" None None);
             InsertFile (mkfile "Data/x.esp" "m1" 1);
             InsertFile (mkfile "DATA/X.ESP" "m1" 2)] in
  keys_unique (fst (apply st)) /\ keys_unique (fst (exec_all st ds)).
Proof.
  intros st ds. apply primary_keys_kept.
  vm_compute. repeat split; intros rows H; injection H as <-;
    repeat (constructor || reflexivity).
Defined.

End DmlExtra.
